(** * patch.py: background-image migration of an exported web site

    A shallow embedding of [src/patch.py] — the image fetcher
    [download_image], the HTML rewriter [process_html_file] and the batch
    driver [main] — together with the parts of the Python runtime they rely
    on ([str.replace], [str.startswith], [re.findall] for the one pattern of
    the script), and the properties of the program stated in the
    specification. *)

From Stdlib Require Import Ascii String.
From Stdlib Require Import List NArith ZArith Bool Arith Lia.
Import ListNotations.

(** * Python strings

    A Python [str] is a sequence of Unicode code points; the HTML files are
    read with [encoding='utf-8'], so the regular expression and the
    replacements work on code points, not on bytes. *)

Definition char := N.
Definition str := list char.

Module PyStr.

Definition ord (a : ascii) : char := N_of_ascii a.

(** [text "abc"] is the Python literal ['abc']. *)
Definition text (s : string) : str := map ord (list_ascii_of_string s).

(** The double quote, which cannot be written inside a literal here. *)
Definition dq : char := 34%N.

(** ['>'] and [')'] *)
Definition gt : char := 62%N.
Definition rparen : char := 41%N.

(** [html "<a b='c'>"] is the Python literal ['<a b="c">']: an apostrophe
    in the argument stands for a double quote. *)
Definition html (s : string) : str :=
  map (fun a => if N.eqb (ord a) 39 then dq else ord a) (list_ascii_of_string s).

(** [strip_prefix p s] is [Some r] when [s == p + r]. *)
Fixpoint strip_prefix (p s : str) : option str :=
  match p, s with
  | [], _ => Some s
  | a :: p', b :: s' => if N.eqb a b then strip_prefix p' s' else None
  | _ :: _, [] => None
  end.

(** [s.startswith(p)] *)
Definition startswith (s p : str) : bool :=
  match strip_prefix p s with Some _ => true | None => false end.

(** [s.partition(sep)] restricted to the found case: the text before and
    after the first (leftmost) occurrence of [sep] in [s]. *)
Fixpoint partition (sep s : str) : option (str * str) :=
  match strip_prefix sep s with
  | Some post => Some ([], post)
  | None =>
      match s with
      | [] => None
      | c :: s' =>
          match partition sep s' with
          | Some (pre, post) => Some (c :: pre, post)
          | None => None
          end
      end
  end.

(** [sub in s] *)
Definition contains (s sub : str) : bool :=
  match partition sub s with Some _ => true | None => false end.

(** [s.replace(old, new, n)] for a non-empty [old]: the first [n]
    non-overlapping occurrences, from the left. *)
Fixpoint replace_upto (n : nat) (s old new : str) : str :=
  match n with
  | 0 => s
  | S n' =>
      match partition old s with
      | Some (pre, post) => pre ++ new ++ replace_upto n' post old new
      | None => s
      end
  end.

(** [s.replace('', new, n)]: [new] is inserted before each of the first
    [n] positions (the end of the string being the last position). *)
Fixpoint replace_empty (n : nat) (s new : str) : str :=
  match n with
  | 0 => s
  | S n' =>
      match s with
      | [] => new
      | c :: s' => new ++ c :: replace_empty n' s' new
      end
  end.

(** [s.replace(old, new)] is [str_replace s old new None] and
    [s.replace(old, new, n)] is [str_replace s old new (Some n)]. Without a
    count CPython replaces up to the largest count there is; a string has
    at most [len(s) + 1] occurrences of anything. *)
Definition str_replace (s old new : str) (count : option nat) : str :=
  let n := match count with Some n => n | None => S (length s) end in
  match old with
  | [] => replace_empty n s new
  | _ :: _ => replace_upto n s old new
  end.

(** [s[i:j]] for [0 <= i <= j]. *)
Definition substr (s : str) (i j : nat) : str := firstn (j - i) (skipn i s).

End PyStr.
Import PyStr.

(** * The backtracking matcher of [re]

    The pattern of the script uses literals, repetitions of one character
    class (greedy [*], lazy [*?] and [+?]) and two capturing groups. As in
    the compiled form of [re], a group is a pair of marks: mark [2g-2] is
    set where group [g] opens and mark [2g-1] where it closes. *)

Module Re.

Inductive op :=
| Literal (l : str)
| Repeat (cls : char -> bool) (lo : nat) (greedy : bool)
| Mark (i : nat).

Definition marks := list (nat * nat).

Fixpoint mark (i : nat) (m : marks) : option nat :=
  match m with
  | [] => None
  | (j, p) :: m' => if Nat.eqb i j then Some p else mark i m'
  end.

(** A repetition of the class [cls], at least [lo] times, followed by the
    rest of the pattern [rest]; [n] characters are taken already. A greedy
    repetition tries one more character before it lets the rest of the
    pattern run, a lazy one lets the rest run first. *)
Fixpoint rep (cls : char -> bool) (lo : nat) (greedy : bool)
    (rest : str -> nat -> option (nat * marks)) (s : str) (pos n : nat) {struct s}
  : option (nat * marks) :=
  let more :=
    match s with
    | c :: s' => if cls c then rep cls lo greedy rest s' (S pos) (S n) else None
    | [] => None
    end in
  let stop := if lo <=? n then rest s pos else None in
  if greedy
  then match more with Some r => Some r | None => stop end
  else match stop with Some r => Some r | None => more end.

(** [run ops s pos m]: match [ops] at the start of [s], which is offset
    [pos] of the text where the attempt began, with the marks [m] set so
    far. The result is the end offset and the marks of the first
    alternative that succeeds, in the order a backtracking matcher explores
    them. *)
Fixpoint run (ops : list op) (s : str) (pos : nat) (m : marks) {struct ops}
  : option (nat * marks) :=
  match ops with
  | [] => Some (pos, m)
  | Literal l :: ops' =>
      match strip_prefix l s with
      | Some s' => run ops' s' (pos + length l) m
      | None => None
      end
  | Mark i :: ops' => run ops' s pos ((i, pos) :: m)
  | Repeat cls lo greedy :: ops' =>
      rep cls lo greedy (fun s pos => run ops' s pos m) s pos 0
  end.

(** [m.group(g)] of a match on [s]; a group that took no part is [''] in
    the tuples of [findall]. *)
Definition group (s : str) (m : marks) (g : nat) : str :=
  match mark (2 * g - 2) m, mark (2 * g - 1) m with
  | Some i, Some j => substr s i j
  | _, _ => []
  end.

(** [scan ops s skip]: the matches of [ops] in [s], leftmost first and not
    overlapping; [skip] counts the characters of [s] still covered by the
    previous match. After an empty match the search moves on by one
    character. *)
Fixpoint scan (ops : list op) (s : str) (skip : nat) : list (str * str) :=
  match skip with
  | S k => match s with _ :: s' => scan ops s' k | [] => [] end
  | 0 =>
      match run ops s 0 [] with
      | Some (e, m) =>
          (group s m 1, group s m 2)
            :: match s with _ :: s' => scan ops s' (e - 1) | [] => [] end
      | None => match s with _ :: s' => scan ops s' 0 | [] => [] end
      end
  end.

(** [re.findall(pattern, s)] for a pattern with two groups. *)
Definition findall (ops : list op) (s : str) : list (str * str) := scan ops s 0.

(** [[^c]] *)
Definition not_char (c : char) : char -> bool := fun x => negb (N.eqb x c).

(** [\s] on a [str] pattern: the Unicode white space characters. *)
Definition is_space (c : char) : bool :=
  ((9 <=? c) && (c <=? 13) || (28 <=? c) && (c <=? 32)
   || (c =? 133) || (c =? 160) || (c =? 5760)
   || (8192 <=? c) && (c <=? 8202)
   || (c =? 8232) || (c =? 8233) || (c =? 8239) || (c =? 8287) || (c =? 12288))%N.

End Re.
Import Re.

(** * patch.py *)

Definition marker : str := text "wsite-section-bg-image".

(** [r'class="[^"]*wsite-section-bg-image[^"]*"[^>]*?style="([^"]*?background-image:\s*url\((_/uploads/[^)]+?)\.html\)[^"]*?)"'] *)
Definition pattern : list op :=
  [ Literal (text "class=" ++ [dq]);
    Repeat (not_char dq) 0 true;
    Literal marker;
    Repeat (not_char dq) 0 true;
    Literal [dq];
    Repeat (not_char gt) 0 false;
    Literal (text "style=" ++ [dq]);
    Mark 0;
    Repeat (not_char dq) 0 false;
    Literal (text "background-image:");
    Repeat is_space 0 true;
    Literal (text "url(");
    Mark 2;
    Literal (text "_/uploads/");
    Repeat (not_char rparen) 1 false;
    Mark 3;
    Literal (text ".html)");
    Repeat (not_char dq) 0 false;
    Mark 1;
    Literal [dq] ].

(** ** The outside world

    The script talks to a web server, to the file system and to the
    console. A run is recorded as the list of its interactions, each with
    the answer it received, oldest first. What the world answers is given by
    an [environment], whose answers may depend on everything that happened
    before.

    The errors the world raises are instances of [Exception]: a refused
    connection, a timeout, an [OSError] of the file system. An interrupt
    from the keyboard and the like are not part of the model, and writing
    to the console is taken not to fail. A [Path] is identified with the text
    it is built from. *)

Definition bytes := list Byte.byte.

(** An instance of a subclass of [Exception], by its message:
    [requests.exceptions.Timeout], [ConnectionError], [OSError], ... *)
Definition error := str.

Inductive exn :=
| Exception (e : error)
| SystemExit (code : Z).

(** What [requests.get] returns. *)
Record response := { status_code : Z; content : bytes }.

(** The lines the script prints, by the [print] that writes them. *)
Inductive message :=
| Trying (url : str)
| Saved (local_path : str)
| Failed (ext : str) (e : error)
| Processing (filepath : str)
| NoElements
| Found (image_path : str)
| WillUpdate (new_url : str)
| SavedHtml (filepath : str)
| TotalChanges (urls : nat)
| DirNotFound
| NoHtmlFiles
| FoundFiles (n : nat)
| ProcessingAll
| SummaryTitle
| TotalFiles (n : nat)
| FilesWithClass (n : nat)
| FilesModified (n : nat)
| Complete.

Inductive event :=
| EvPrint (m : message)
| EvGet (url : str) (r : response + error)
| EvMkdirParent (path : str) (r : option error)
| EvWriteBytes (path : str) (data : bytes) (r : option error)
| EvReadText (path : str) (r : str + error)
| EvWriteText (path : str) (data : str) (r : option error)
| EvExists (path : str) (r : bool)
| EvGlob (dir pat : str) (r : list str).

Definition history := list event.

Record environment := {
  (** [requests.get(url, timeout=10)]: a response, or the exception raised
      (connection refused, timeout, ...) *)
  http_get : history -> str -> response + error;
  (** [Path(path).parent.mkdir(parents=True, exist_ok=True)] *)
  fs_mkdir_parent : history -> str -> option error;
  (** [open(path, 'wb')] and [f.write(data)] *)
  fs_write_bytes : history -> str -> bytes -> option error;
  (** [open(path, 'r', encoding='utf-8')] and [f.read()] *)
  fs_read_text : history -> str -> str + error;
  (** [open(path, 'w', encoding='utf-8')] and [f.write(data)] *)
  fs_write_text : history -> str -> str -> option error;
  (** [Path(path).exists()] *)
  fs_exists : history -> str -> bool;
  (** [list(Path(dir).glob(pat))] *)
  fs_glob : history -> str -> str -> list str }.

(** ** Computations

    A computation is given the history so far and yields its outcome — a
    value or a raised exception — and the events it added. *)

Inductive outcome (A : Type) :=
| Ret (a : A)
| Raise (x : exn).
Arguments Ret {A} a.
Arguments Raise {A} x.

Definition M (A : Type) := history -> outcome A * list event.

Definition ret {A} (a : A) : M A := fun _ => (Ret a, []).

Definition raise {A} (x : exn) : M A := fun _ => (Raise x, []).

Definition bind {A B} (m : M A) (f : A -> M B) : M B :=
  fun h =>
    let (r, es) := m h in
    match r with
    | Ret a => let (r', es') := f a (h ++ es) in (r', es ++ es')
    | Raise x => (Raise x, es)
    end.

(** [try: body except Exception as e: handler]: [SystemExit] is not an
    [Exception] and passes through. *)
Definition try_except {A} (body : M A) (handler : error -> M A) : M A :=
  fun h =>
    let (r, es) := body h in
    match r with
    | Raise (Exception e) => let (r', es') := handler e (h ++ es) in (r', es ++ es')
    | _ => (r, es)
    end.

Declare Scope py_scope.
Delimit Scope py_scope with py.
Notation "x <- m ;; k" := (bind m (fun x => k))
  (at level 61, m at next level, right associativity) : py_scope.
Notation "m ;; k" := (bind m (fun _ => k))
  (at level 61, right associativity) : py_scope.
Open Scope py_scope.

Definition raised {A} (r : option error) (a : A) : outcome A :=
  match r with
  | None => Ret a
  | Some e => Raise (Exception e)
  end.

Section Program.

Variable env : environment.

(** [print(...)], which is taken not to raise. *)
Definition print (m : message) : M unit := fun _ => (Ret tt, [EvPrint m]).

Definition requests_get (url : str) : M response :=
  fun h =>
    let r := http_get env h url in
    (match r with inl resp => Ret resp | inr e => Raise (Exception e) end,
     [EvGet url r]).

Definition mkdir_parent (path : str) : M unit :=
  fun h => let r := fs_mkdir_parent env h path in (raised r tt, [EvMkdirParent path r]).

Definition write_bytes (path : str) (data : bytes) : M unit :=
  fun h => let r := fs_write_bytes env h path data in (raised r tt, [EvWriteBytes path data r]).

Definition read_text (path : str) : M str :=
  fun h =>
    let r := fs_read_text env h path in
    (match r with inl s => Ret s | inr e => Raise (Exception e) end,
     [EvReadText path r]).

Definition write_text (path : str) (data : str) : M unit :=
  fun h => let r := fs_write_text env h path data in (raised r tt, [EvWriteText path data r]).

Definition path_exists (path : str) : M bool :=
  fun h => let r := fs_exists env h path in (Ret r, [EvExists path r]).

Definition glob (dir pat : str) : M (list str) :=
  fun h => let r := fs_glob env h dir pat in (Ret r, [EvGlob dir pat r]).

(** *** download_image *)

(** [image_path[2:] if image_path.startswith('_/') else image_path] *)
Definition remote_path_of (image_path : str) : str :=
  if startswith image_path (text "_/") then skipn 2 image_path else image_path.

(** The extensions in the order they are tried. *)
Definition extensions : list str := [text ".png"; text ".jpg"; text ".jpeg"].

Definition url_of (remote_path ext : str) : str :=
  text "https://tgv4plus.com/" ++ remote_path ++ ext.

(** [Path(f"_/{remote_path}{ext}")], by the text it is built from. *)
Definition local_path_of (remote_path ext : str) : str :=
  text "_/" ++ remote_path ++ ext.

Definition reference_of (remote_path ext : str) : str :=
  text "./" ++ remote_path ++ ext.

(** One turn of the [for ext in ...] loop; [Some ref] is the [return]
    inside it. *)
Definition attempt (remote_path ext : str) : M (option str) :=
  let url := url_of remote_path ext in
  print (Trying url) ;;
  try_except
    (response <- requests_get url ;;
     if (status_code response =? 200)%Z then
       let local_path := local_path_of remote_path ext in
       mkdir_parent local_path ;;
       write_bytes local_path (content response) ;;
       print (Saved local_path) ;;
       ret (Some (reference_of remote_path ext))
     else ret None)
    (fun e => print (Failed ext e) ;; ret None).

Fixpoint try_extensions (remote_path : str) (exts : list str) : M (option str) :=
  match exts with
  | [] => ret None
  | ext :: exts' =>
      returned <- attempt remote_path ext ;;
      match returned with
      | Some ref => ret (Some ref)
      | None => try_extensions remote_path exts'
      end
  end.

Definition download_image (image_path : str) : M (option str) :=
  let remote_path := remote_path_of image_path in
  try_extensions remote_path extensions.

(** *** process_html_file *)

(** [f'style="{v}"'] *)
Definition style_attr (v : str) : str := text "style=" ++ [dq] ++ v ++ [dq].

(** [f"url({image_path}.html)"] and [f"url({new_path})"] *)
Definition old_url_of (image_path : str) : str := text "url(" ++ image_path ++ text ".html)".
Definition new_url_of (new_path : str) : str := text "url(" ++ new_path ++ text ")".

(** The [for full_style, image_path in matches] loop, on the pair
    [(modified, replacements)]. [if new_path:] holds for a string that is
    not empty. *)
Fixpoint for_matches (matches : list (str * str)) (st : bool * list (str * str))
  : M (bool * list (str * str)) :=
  match matches with
  | [] => ret st
  | (full_style, image_path) :: matches' =>
      print (Found image_path) ;;
      new_path <- download_image image_path ;;
      match new_path with
      | Some ((_ :: _) as new_path) =>
          let old_url := old_url_of image_path in
          let new_url := new_url_of new_path in
          let new_style := str_replace full_style old_url new_url None in
          print (WillUpdate new_url) ;;
          for_matches matches' (true, snd st ++ [(full_style, new_style)])
      | _ => for_matches matches' st
      end
  end.

(** The [for old_style, new_style in replacements] loop. *)
Definition apply_replacements (content : str) (replacements : list (str * str)) : str :=
  fold_left
    (fun content '(old_style, new_style) =>
       str_replace content (style_attr old_style) (style_attr new_style) (Some 1))
    replacements content.

(** The count of the "verify" loop: positions where the two texts differ. *)
Definition count_changes (original_content content : str) : nat :=
  length (filter (fun '(old_char, new_char) => negb (N.eqb old_char new_char))
            (combine original_content content)).

Definition process_html_file (filepath : str) : M bool :=
  print (Processing filepath) ;;
  content <- read_text filepath ;;
  let original_content := content in
  let matches := findall pattern content in
  match matches with
  | [] => print NoElements ;; ret false
  | _ :: _ =>
      st <- for_matches matches (false, []) ;;
      let '(modified, replacements) := st in
      if modified then
        let content := apply_replacements content replacements in
        let changes := count_changes original_content content in
        write_text filepath content ;;
        print (SavedHtml filepath) ;;
        print (TotalChanges (length replacements)) ;;
        ret true
      else ret false
  end.

(** *** main *)

(** The [for html_file in html_files] loop, on the pair
    [(processed_count, modified_count)]. *)
Fixpoint for_files (html_files : list str) (counts : nat * nat) : M (nat * nat) :=
  match html_files with
  | [] => ret counts
  | html_file :: html_files' =>
      data <- read_text html_file ;;
      if contains data marker then
        success <- process_html_file html_file ;;
        for_files html_files'
          (S (fst counts), if success then S (snd counts) else snd counts)
      else for_files html_files' counts
  end.

Definition main : M unit :=
  let html_dir := text "_" in
  found <- path_exists html_dir ;;
  if negb found then
    print DirNotFound ;; raise (SystemExit 1)
  else
    html_files <- glob html_dir (text "*.html") ;;
    match html_files with
    | [] => print NoHtmlFiles ;; raise (SystemExit 1)
    | _ :: _ =>
        print (FoundFiles (length html_files)) ;;
        print ProcessingAll ;;
        counts <- for_files html_files (0, 0) ;;
        print SummaryTitle ;;
        print (TotalFiles (length html_files)) ;;
        print (FilesWithClass (fst counts)) ;;
        print (FilesModified (snd counts)) ;;
        print Complete
    end.

End Program.

(** ** What a run did *)

(** The URLs requested, and the answers received, in order. *)
Definition requested (es : list event) : list str :=
  flat_map (fun e => match e with EvGet url _ => [url] | _ => [] end) es.

Definition answers (es : list event) : list (response + error) :=
  flat_map (fun e => match e with EvGet _ r => [r] | _ => [] end) es.

(** An answer other than a response with status 200. *)
Definition failed (r : response + error) : bool :=
  match r with
  | inl resp => negb (status_code resp =? 200)%Z
  | inr _ => true
  end.

(** The image files written without error. *)
Definition saved (es : list event) : list (str * bytes) :=
  flat_map (fun e => match e with EvWriteBytes path data None => [(path, data)] | _ => [] end) es.

(** The texts written back, whether or not the write went through. *)
Definition written (es : list event) : list (str * str) :=
  flat_map (fun e => match e with EvWriteText path data _ => [(path, data)] | _ => [] end) es.

(** The events that can change the disk. *)
Definition touches_disk (e : event) : bool :=
  match e with
  | EvMkdirParent _ _ | EvWriteBytes _ _ _ | EvWriteText _ _ _ => true
  | _ => false
  end.

(** [s.count(sub)] for a non-empty [sub], with [n] an upper bound. *)
Fixpoint count_upto (n : nat) (s sub : str) : nat :=
  match n with
  | 0 => 0
  | S n' =>
      match partition sub s with
      | Some (_, post) => S (count_upto n' post sub)
      | None => 0
      end
  end.

Definition occurrences (s sub : str) : nat := count_upto (length s) s sub.

(** ** The shape of a match

    [sem ops done w m m']: the text [w] is in the language of [ops] when it
    follows the text [done], and the marks go from [m] to [m']. *)

Fixpoint sem (ops : list op) (done w : str) (m m' : marks) : Prop :=
  match ops with
  | [] => w = [] /\ m' = m
  | Literal l :: ops' => exists w', w = l ++ w' /\ sem ops' (done ++ l) w' m m'
  | Repeat cls lo _ :: ops' =>
      exists u w', w = u ++ w' /\ forallb cls u = true /\ lo <= length u
                   /\ sem ops' (done ++ u) w' m m'
  | Mark i :: ops' => sem ops' done w ((i, length done) :: m) m'
  end.

(** The captured style value [full_style] holds the declaration
    [background-image: url(<image_path>.html)], and [image_path] is under
    [_/uploads/]. *)
Definition style_shape (full_style image_path : str) : Prop :=
  exists X WS P T,
    full_style = X ++ text "background-image:" ++ WS ++ old_url_of image_path ++ T
    /\ image_path = text "_/uploads/" ++ P
    /\ P <> []
    /\ forallb (not_char dq) X = true
    /\ forallb is_space WS = true
    /\ forallb (not_char rparen) P = true
    /\ forallb (not_char dq) T = true.

(** The text [c] holds a class attribute with the marker class, then –
    with no ['>'] in between – the attribute [style="full_style"]. *)
Definition tag_shape (c full_style : str) : Prop :=
  exists pre A A' B post,
    c = pre ++ (text "class=" ++ [dq]) ++ A ++ marker ++ A' ++ [dq] ++ B
            ++ style_attr full_style ++ post
    /\ forallb (not_char dq) A = true
    /\ forallb (not_char dq) A' = true
    /\ forallb (not_char gt) B = true.

(** ** The frame of a rewrite

    [rewritten matches c c']: [c'] is reached from [c] by replacing, one
    after the other, the leftmost occurrence of [style="old"] by
    [style="new"], where [old] is a style value captured by one of [matches]
    and [new] is [old] with the URL of that match replaced; the text before
    and after the occurrence is kept each time. *)

Inductive rewritten (matches : list (str * str)) : str -> str -> Prop :=
| rewritten_done c : rewritten matches c c
| rewritten_step c c' pre post old_style image_path new_path :
    In (old_style, image_path) matches ->
    c = pre ++ style_attr old_style ++ post ->
    (forall pre' post',
        c = pre' ++ style_attr old_style ++ post' -> length pre <= length pre') ->
    rewritten matches
      (pre ++ style_attr (str_replace old_style (old_url_of image_path)
                            (new_url_of new_path) None) ++ post) c' ->
    rewritten matches c c'.

(** ** The runs of the fetcher

    [attempt_run rp ext r es]: what one turn of the loop of [download_image]
    can do for the extension [ext], by what the world answers: the events
    [es], and [r], the value returned from inside the loop if any. *)

Inductive attempt_run (rp ext : str) : option str -> list event -> Prop :=
| get_raises e :
    attempt_run rp ext None
      [EvPrint (Trying (url_of rp ext)); EvGet (url_of rp ext) (inr e);
       EvPrint (Failed ext e)]
| get_not_200 resp :
    status_code resp <> 200%Z ->
    attempt_run rp ext None
      [EvPrint (Trying (url_of rp ext)); EvGet (url_of rp ext) (inl resp)]
| mkdir_raises resp e :
    status_code resp = 200%Z ->
    attempt_run rp ext None
      [EvPrint (Trying (url_of rp ext)); EvGet (url_of rp ext) (inl resp);
       EvMkdirParent (local_path_of rp ext) (Some e); EvPrint (Failed ext e)]
| write_raises resp e :
    status_code resp = 200%Z ->
    attempt_run rp ext None
      [EvPrint (Trying (url_of rp ext)); EvGet (url_of rp ext) (inl resp);
       EvMkdirParent (local_path_of rp ext) None;
       EvWriteBytes (local_path_of rp ext) (content resp) (Some e);
       EvPrint (Failed ext e)]
| downloaded resp :
    status_code resp = 200%Z ->
    attempt_run rp ext (Some (reference_of rp ext))
      [EvPrint (Trying (url_of rp ext)); EvGet (url_of rp ext) (inl resp);
       EvMkdirParent (local_path_of rp ext) None;
       EvWriteBytes (local_path_of rp ext) (content resp) None;
       EvPrint (Saved (local_path_of rp ext))].

Inductive fetch_run (rp : str) : list str -> option str -> list event -> Prop :=
| fetch_none : fetch_run rp [] None []
| fetch_hit ext exts ref es :
    attempt_run rp ext (Some ref) es ->
    fetch_run rp (ext :: exts) (Some ref) es
| fetch_next ext exts es r es' :
    attempt_run rp ext None es ->
    fetch_run rp exts r es' ->
    fetch_run rp (ext :: exts) r (es ++ es').

(** The events of a run that neither asks the server nor changes the disk. *)
Definition quiet (es : list event) : Prop :=
  requested es = [] /\ filter touches_disk es = [].

(** The replacements recorded for the matches [all]. *)
Definition recorded (all : list (str * str)) (replacements : list (str * str)) : Prop :=
  Forall (fun '(old_style, new_style) =>
            exists image_path new_path,
              In (old_style, image_path) all
              /\ new_style = str_replace old_style (old_url_of image_path)
                               (new_url_of new_path) None)
         replacements.

(** Every file that can be read holds a text in which nothing matches the
    pattern any more. *)
Definition all_migrated (env : environment) : Prop :=
  forall h path c, fs_read_text env h path = inl c -> findall pattern c = [].

(** ** Worlds to run the script in *)

Module Scenario.

Definition endswith (s suffix : str) : bool := startswith (rev s) (rev suffix).

Definition body : bytes := [Byte.x89; Byte.x50; Byte.x4e; Byte.x47].

Definition ok : response + error := inl {| status_code := 200; content := body |}.
Definition not_found : response + error := inl {| status_code := 404; content := [] |}.
Definition timeout : response + error := inr (text "Read timed out.").

Definition index_html : str := text "_/index.html".

(** A server that answers by URL, a disk on which the paths in [writable]
    can be written, and one file [_/index.html] holding [doc]. *)
Definition mock (serve : str -> response + error) (writable : str -> bool) (doc : str)
  : environment :=
  {| http_get := fun _ url => serve url;
     fs_mkdir_parent := fun _ _ => None;
     fs_write_bytes := fun _ path _ =>
       if writable path then None else Some (text "Permission denied");
     fs_read_text := fun _ _ => inl doc;
     fs_write_text := fun _ _ _ => None;
     fs_exists := fun _ _ => true;
     fs_glob := fun _ _ _ => [index_html] |}.

Definition serve_all : str -> response + error := fun _ => ok.
Definition serve_none : str -> response + error := fun _ => not_found.
Definition serve_jpg : str -> response + error :=
  fun url => if endswith url (text ".jpg") then ok else not_found.
Definition serve_down : str -> response + error := fun _ => timeout.

Definition any_path : str -> bool := fun _ => true.
Definition no_png : str -> bool := fun path => negb (endswith path (text ".png")).

Definition style_a : str := text "background-image: url(_/uploads/a.html)".
Definition path_a : str := text "_/uploads/a".

(** One element that matches. *)
Definition doc_one : str :=
  html "<div class='wsite-section-bg-image' style='background-image: url(_/uploads/a.html)'></div>".

(** Two elements that match, with the same style value. *)
Definition doc_twins : str := doc_one ++ doc_one.

(** The style attribute comes before the class attribute. *)
Definition elem_style_first : str :=
  html "<p style='background-image: url(_/uploads/a.html)' class='wsite-section-bg-image'></p>".

(** The style attribute is in another tag than the marker class. *)
Definition elem_other_tag : str :=
  html "<div class='wsite-section-bg-image'><p style='background-image: url(_/uploads/a.html)'></p></div>".

(** An element that is not matched, before one that is, with the same
    style value. *)
Definition doc_mixed : str := elem_style_first ++ doc_one.

(** [doc_one] after its migration. *)
Definition doc_migrated : str :=
  html "<div class='wsite-section-bg-image' style='background-image: url(./uploads/a.png)'></div>".

End Scenario.

(** ** The runs of the rewriter and of the driver

    [matches_run ms st st' es]: what the loop over the matches [ms] can do
    from the state [st = (modified, replacements)]: the events [es] and the
    state [st'] it ends in. A match whose fetch returns a reference records a
    replacement, a match whose fetch returns nothing leaves the state as it
    is. *)

Inductive matches_run :
  list (str * str) -> bool * list (str * str) -> bool * list (str * str)
  -> list event -> Prop :=
| matches_done st : matches_run [] st st []
| matches_hit full_style image_path ms st st' ref es es' :
    fetch_run (remote_path_of image_path) extensions (Some ref) es ->
    matches_run ms
      (true, snd st ++ [(full_style,
                         str_replace full_style (old_url_of image_path)
                           (new_url_of ref) None)]) st' es' ->
    matches_run ((full_style, image_path) :: ms) st st'
      (EvPrint (Found image_path) :: es ++ EvPrint (WillUpdate (new_url_of ref)) :: es')
| matches_miss full_style image_path ms st st' es es' :
    fetch_run (remote_path_of image_path) extensions None es ->
    matches_run ms st st' es' ->
    matches_run ((full_style, image_path) :: ms) st st'
      (EvPrint (Found image_path) :: es ++ es').

(** [process_run filepath r es]: what [process_html_file filepath] can do:
    its outcome [r] and its events [es]. *)

Inductive process_run (filepath : str) : outcome bool -> list event -> Prop :=
| process_unreadable e :
    process_run filepath (Raise (Exception e))
      [EvPrint (Processing filepath); EvReadText filepath (inr e)]
| process_nothing_found c :
    findall pattern c = [] ->
    process_run filepath (Ret false)
      [EvPrint (Processing filepath); EvReadText filepath (inl c); EvPrint NoElements]
| process_nothing_fetched c replacements es :
    matches_run (findall pattern c) (false, []) (false, replacements) es ->
    process_run filepath (Ret false)
      (EvPrint (Processing filepath) :: EvReadText filepath (inl c) :: es)
| process_written_back c replacements es :
    matches_run (findall pattern c) (false, []) (true, replacements) es ->
    process_run filepath (Ret true)
      (EvPrint (Processing filepath) :: EvReadText filepath (inl c) :: es
         ++ [EvWriteText filepath (apply_replacements c replacements) None;
             EvPrint (SavedHtml filepath);
             EvPrint (TotalChanges (length replacements))])
| process_write_raises c replacements es e :
    matches_run (findall pattern c) (false, []) (true, replacements) es ->
    process_run filepath (Raise (Exception e))
      (EvPrint (Processing filepath) :: EvReadText filepath (inl c) :: es
         ++ [EvWriteText filepath (apply_replacements c replacements) (Some e)]).

(** [files_run files counts r es]: what the loop of [main] over [files] can
    do from the counts [(processed_count, modified_count)]. *)

Inductive files_run :
  list str -> nat * nat -> outcome (nat * nat) -> list event -> Prop :=
| files_done counts : files_run [] counts (Ret counts) []
| files_unreadable f fs counts e :
    files_run (f :: fs) counts (Raise (Exception e)) [EvReadText f (inr e)]
| files_skip f fs counts data r es :
    contains data marker = false ->
    files_run fs counts r es ->
    files_run (f :: fs) counts r (EvReadText f (inl data) :: es)
| files_process f fs counts data success es r es' :
    contains data marker = true ->
    process_run f (Ret success) es ->
    files_run fs (S (fst counts), if success then S (snd counts) else snd counts) r es' ->
    files_run (f :: fs) counts r (EvReadText f (inl data) :: es ++ es')
| files_abort f fs counts data x es :
    contains data marker = true ->
    process_run f (Raise x) es ->
    files_run (f :: fs) counts (Raise x) (EvReadText f (inl data) :: es).

(** [main_run r es]: what [main] can do. *)

Inductive main_run : outcome unit -> list event -> Prop :=
| main_no_directory :
    main_run (Raise (SystemExit 1)) [EvExists (text "_") false; EvPrint DirNotFound]
| main_no_files :
    main_run (Raise (SystemExit 1))
      [EvExists (text "_") true; EvGlob (text "_") (text "*.html") [];
       EvPrint NoHtmlFiles]
| main_aborted files x es :
    files <> [] ->
    files_run files (0, 0) (Raise x) es ->
    main_run (Raise x)
      (EvExists (text "_") true :: EvGlob (text "_") (text "*.html") files
         :: EvPrint (FoundFiles (length files)) :: EvPrint ProcessingAll :: es)
| main_completed files counts es :
    files <> [] ->
    files_run files (0, 0) (Ret counts) es ->
    main_run (Ret tt)
      (EvExists (text "_") true :: EvGlob (text "_") (text "*.html") files
         :: EvPrint (FoundFiles (length files)) :: EvPrint ProcessingAll :: es
         ++ [EvPrint SummaryTitle; EvPrint (TotalFiles (length files));
             EvPrint (FilesWithClass (fst counts));
             EvPrint (FilesModified (snd counts)); EvPrint Complete]).

(** The files [process_html_file] was called on, by its first line of
    output. *)
Definition processed (es : list event) : list str :=
  flat_map (fun e => match e with EvPrint (Processing f) => [f] | _ => [] end) es.

(** The text files read. *)
Definition texts_read (es : list event) : list str :=
  flat_map (fun e => match e with EvReadText path _ => [path] | _ => [] end) es.

(** An operation on a file that raised. *)
Definition file_error (e : event) (err : error) : Prop :=
  match e with
  | EvReadText _ (inr x) => x = err
  | EvWriteText _ _ (Some x) => x = err
  | _ => False
  end.

(** The reference [./R] stands for a file [_/R] saved in the run [es]. *)
Definition saved_reference (es : list event) (ref : str) : Prop :=
  exists R data,
    ref = text "./" ++ R /\ In (EvWriteBytes (text "_/" ++ R) data None) es.

(** A replacement puts the reference of a file saved in the run [es] in the
    place of the URL of one of the matches [all]. *)
Definition backed_replacement (all : list (str * str)) (es : list event)
    (replacement : str * str) : Prop :=
  exists image_path ref,
    In (fst replacement, image_path) all
    /\ snd replacement
       = str_replace (fst replacement) (old_url_of image_path) (new_url_of ref) None
    /\ saved_reference es ref.

(** A request or an image file of the rewriter: under [uploads/] of the
    server, under [_/uploads/] of the disk. *)
Definition under_uploads (e : event) : Prop :=
  match e with
  | EvGet url _ => exists rest, url = text "https://tgv4plus.com/uploads/" ++ rest
  | EvMkdirParent path _ => exists rest, path = text "_/uploads/" ++ rest
  | EvWriteBytes path _ _ => exists rest, path = text "_/uploads/" ++ rest
  | _ => True
  end.

Module MoreScenarios.

Import Scenario.

(** The style is the one looked for, the class is not. *)
Definition doc_other_class : str :=
  html "<div class='banner' style='background-image: url(_/uploads/a.html)'></div>".

(** The style attribute comes before the class attribute, and another
    attribute whose name ends in [style] comes after it. *)
Definition elem_data_style : str :=
  html "<p style='color: red' class='wsite-section-bg-image' data-style='background-image: url(_/uploads/a.html)'></p>".

(** The URL occurs twice in the style value. *)
Definition doc_two_urls : str :=
  html "<div class='wsite-section-bg-image' style='background-image: url(_/uploads/a.html); background: url(_/uploads/a.html)'></div>".

(** A disk on which no file can be read. *)
Definition unreadable : environment :=
  {| http_get := fun _ _ => ok;
     fs_mkdir_parent := fun _ _ => None;
     fs_write_bytes := fun _ _ _ => None;
     fs_read_text := fun _ _ => inr (text "Permission denied");
     fs_write_text := fun _ _ _ => None;
     fs_exists := fun _ _ => true;
     fs_glob := fun _ _ _ => [index_html] |}.

(** The directory [_] is missing. *)
Definition no_directory : environment :=
  {| http_get := fun _ _ => ok;
     fs_mkdir_parent := fun _ _ => None;
     fs_write_bytes := fun _ _ _ => None;
     fs_read_text := fun _ _ => inl doc_one;
     fs_write_text := fun _ _ _ => None;
     fs_exists := fun _ _ => false;
     fs_glob := fun _ _ _ => [index_html] |}.

End MoreScenarios.

(** ** The script on a console that can fail

    In [Section Program] above the console takes every line. A real console
    does not: [print] raises [UnicodeEncodeError] when the encoding of
    [sys.stdout] has no code for a character of the line (the check mark of
    lines 29, 76, 94 and 134, the cross of line 34), or [BrokenPipeError]. Here
    is the same script with a console that can raise; [console h m] is the
    error that printing [m] after the history [h] raises, if any. The event
    [EvPrint m] records the call, whether or not it went through. *)

Module Console.

Section Program.

Variable env : environment.
Variable console : history -> message -> option error.

Definition print (m : message) : M unit :=
  fun h => (raised (console h m) tt, [EvPrint m]).

Definition attempt (remote_path ext : str) : M (option str) :=
  let url := url_of remote_path ext in
  print (Trying url) ;;
  try_except
    (response <- requests_get env url ;;
     if (status_code response =? 200)%Z then
       let local_path := local_path_of remote_path ext in
       mkdir_parent env local_path ;;
       write_bytes env local_path (content response) ;;
       print (Saved local_path) ;;
       ret (Some (reference_of remote_path ext))
     else ret None)
    (fun e => print (Failed ext e) ;; ret None).

Fixpoint try_extensions (remote_path : str) (exts : list str) : M (option str) :=
  match exts with
  | [] => ret None
  | ext :: exts' =>
      returned <- attempt remote_path ext ;;
      match returned with
      | Some ref => ret (Some ref)
      | None => try_extensions remote_path exts'
      end
  end.

Definition download_image (image_path : str) : M (option str) :=
  let remote_path := remote_path_of image_path in
  try_extensions remote_path extensions.

Fixpoint for_matches (matches : list (str * str)) (st : bool * list (str * str))
  : M (bool * list (str * str)) :=
  match matches with
  | [] => ret st
  | (full_style, image_path) :: matches' =>
      print (Found image_path) ;;
      new_path <- download_image image_path ;;
      match new_path with
      | Some ((_ :: _) as new_path) =>
          let old_url := old_url_of image_path in
          let new_url := new_url_of new_path in
          let new_style := str_replace full_style old_url new_url None in
          print (WillUpdate new_url) ;;
          for_matches matches' (true, snd st ++ [(full_style, new_style)])
      | _ => for_matches matches' st
      end
  end.

Definition process_html_file (filepath : str) : M bool :=
  print (Processing filepath) ;;
  content <- read_text env filepath ;;
  let original_content := content in
  let matches := findall pattern content in
  match matches with
  | [] => print NoElements ;; ret false
  | _ :: _ =>
      st <- for_matches matches (false, []) ;;
      let '(modified, replacements) := st in
      if modified then
        let content := apply_replacements content replacements in
        let changes := count_changes original_content content in
        write_text env filepath content ;;
        print (SavedHtml filepath) ;;
        print (TotalChanges (length replacements)) ;;
        ret true
      else ret false
  end.

Fixpoint for_files (html_files : list str) (counts : nat * nat) : M (nat * nat) :=
  match html_files with
  | [] => ret counts
  | html_file :: html_files' =>
      data <- read_text env html_file ;;
      if contains data marker then
        success <- process_html_file html_file ;;
        for_files html_files'
          (S (fst counts), if success then S (snd counts) else snd counts)
      else for_files html_files' counts
  end.

Definition main : M unit :=
  let html_dir := text "_" in
  found <- path_exists env html_dir ;;
  if negb found then
    print DirNotFound ;; raise (SystemExit 1)
  else
    html_files <- glob env html_dir (text "*.html") ;;
    match html_files with
    | [] => print NoHtmlFiles ;; raise (SystemExit 1)
    | _ :: _ =>
        print (FoundFiles (length html_files)) ;;
        print ProcessingAll ;;
        counts <- for_files html_files (0, 0) ;;
        print SummaryTitle ;;
        print (TotalFiles (length html_files)) ;;
        print (FilesWithClass (fst counts)) ;;
        print (FilesModified (snd counts)) ;;
        print Complete
    end.

End Program.

(** The console takes every line. *)
Definition never_fails (console : history -> message -> option error) : Prop :=
  forall h m, console h m = None.

(** The event [ev], which follows the history [h], is a [print] that raised
    [x]. *)
Definition print_failed (console : history -> message -> option error)
    (h : history) (ev : event) (x : exn) : Prop :=
  exists m e, ev = EvPrint m /\ console h m = Some e /\ x = Exception e.

(** ... one of the two [print]s of [download_image] that no [try] covers:
    line 17, before the [try], and line 34, in the handler. *)
Definition fetcher_print_failed (console : history -> message -> option error)
    (h : history) (ev : event) (x : exn) : Prop :=
  exists m e,
    ev = EvPrint m /\ console h m = Some e /\ x = Exception e
    /\ ((exists url, m = Trying url) \/ (exists ext cause, m = Failed ext cause)).

(** ... or a read or a write of a text file that raised [x]. *)
Definition print_or_file_failed (console : history -> message -> option error)
    (h : history) (ev : event) (x : exn) : Prop :=
  print_failed console h ev x \/ exists e, x = Exception e /\ file_error ev e.

(** ... or the [sys.exit(1)] of [main] itself, after the line it printed. *)
Definition main_culprit (console : history -> message -> option error)
    (h : history) (ev : event) (x : exn) : Prop :=
  print_or_file_failed console h ev x
  \/ (x = SystemExit 1 /\ (ev = EvPrint DirNotFound \/ ev = EvPrint NoHtmlFiles)).

(** Any operation that raised an [Exception]. *)
Definition any_failed (h : history) (ev : event) (x : exn) : Prop :=
  exists e, x = Exception e.

(** [blames culprit m]: whenever the computation [m] raises, the last thing
    it did is the operation that raised, one that [culprit] allows. *)
Definition blames (culprit : history -> event -> exn -> Prop) {A} (m : M A) : Prop :=
  forall h x,
    fst (m h) = Raise x ->
    exists es0 ev, snd (m h) = es0 ++ [ev] /\ culprit (h ++ es0) ev x.

(** Two computations that do the same after every history. *)
Definition same {A} (m m' : M A) : Prop := forall h, m h = m' h.

End Console.

(** ** Words for what the fetcher and the rewriter do *)

(** The attempt for the extension [ext] failed in the run [es]: the URL was
    requested, and the answer was not a 200, or making the directory or
    writing the file raised. *)
Definition attempt_failed (rp ext : str) (es : list event) : Prop :=
  exists a,
    In (EvGet (url_of rp ext) a) es
    /\ (failed a = true
        \/ (exists e, In (EvMkdirParent (local_path_of rp ext) (Some e)) es)
        \/ (exists data e, In (EvWriteBytes (local_path_of rp ext) data (Some e)) es)).

(** [lockstep rp exts o es]: in the run [es] with the outcome [o], the URL
    requested, the directory made, the file written and the reference
    returned are built from the same path [rp] and the same extension, one
    of [exts]: a GET that answers 200 is followed by making the directory
    and, if that does not raise, by writing what the answer held; nothing
    else is made or written; and a reference is returned only for a file
    that was written. *)
Definition lockstep (rp : str) (exts : list str) (o : outcome (option str))
    (es : list event) : Prop :=
  (forall url a, In (EvGet url a) es -> exists ext, In ext exts /\ url = url_of rp ext)
  /\ (forall ext resp,
        In (EvGet (url_of rp ext) (inl resp)) es ->
        status_code resp = 200%Z ->
        exists a,
          In (EvMkdirParent (local_path_of rp ext) a) es
          /\ (a = None ->
              exists b, In (EvWriteBytes (local_path_of rp ext) (content resp) b) es))
  /\ (forall path a,
        In (EvMkdirParent path a) es ->
        exists ext resp,
          In ext exts /\ path = local_path_of rp ext
          /\ status_code resp = 200%Z
          /\ In (EvGet (url_of rp ext) (inl resp)) es)
  /\ (forall path data a,
        In (EvWriteBytes path data a) es ->
        exists ext resp,
          In ext exts /\ path = local_path_of rp ext /\ data = content resp
          /\ status_code resp = 200%Z
          /\ In (EvGet (url_of rp ext) (inl resp)) es
          /\ In (EvMkdirParent path None) es)
  /\ (forall ref,
        o = Ret (Some ref) ->
        exists ext resp,
          In ext exts /\ ref = reference_of rp ext
          /\ status_code resp = 200%Z
          /\ In (EvGet (url_of rp ext) (inl resp)) es
          /\ In (EvWriteBytes (local_path_of rp ext) (content resp) None) es).

(** With a server that answers a URL by [serve] and a disk on which making
    the directory of a path answers [mk] and writing it [wr]: the attempt
    for [ext] gets a 200 and saves the file. *)
Definition wins (serve : str -> response + error) (mk wr : str -> option error)
    (rp ext : str) : bool :=
  match serve (url_of rp ext), mk (local_path_of rp ext), wr (local_path_of rp ext) with
  | inl resp, None, None => (status_code resp =? 200)%Z
  | _, _, _ => false
  end.

(** What the attempt for [ext] saves when it gets a 200 from [serve] and the
    disk takes the file. *)
Definition saved_by (serve : str -> response + error) (rp ext : str) : list (str * bytes) :=
  match serve (url_of rp ext) with
  | inl resp => [(local_path_of rp ext, content resp)]
  | inr _ => []
  end.

(** The extensions tried when [wins ext] tells whether the attempt for
    [ext] ends the loop: all up to the first that wins. *)
Fixpoint tried (wins : str -> bool) (exts : list str) : list str :=
  match exts with
  | [] => []
  | ext :: exts' => ext :: if wins ext then [] else tried wins exts'
  end.

(** The replacements recorded for [matches] when [outcomes] are the
    results of the fetcher for them, in order. *)
Definition replacements_of (matches : list (str * str)) (outcomes : list (option str))
  : list (str * str) :=
  flat_map
    (fun '((full_style, image_path), new_path) =>
       match new_path with
       | Some new_path =>
           [(full_style,
             str_replace full_style (old_url_of image_path) (new_url_of new_path) None)]
       | None => []
       end)
    (combine matches outcomes).

Definition succeeded (outcomes : list (option str)) : nat :=
  length (filter (fun o => match o with Some _ => true | None => false end) outcomes).

(** [substituted replacements c c']: [c'] is [c] after the replacements
    were applied one after the other, each to the leftmost occurrence of
    [style="old"] in the text as it then is – and to nothing if there is
    none; the text before and after that occurrence is kept. *)
Inductive substituted : list (str * str) -> str -> str -> Prop :=
| substituted_all c : substituted [] c c
| substituted_leftmost old_style new_style replacements c pre post c' :
    c = pre ++ style_attr old_style ++ post ->
    (forall pre' post',
        c = pre' ++ style_attr old_style ++ post' -> length pre <= length pre') ->
    substituted replacements (pre ++ style_attr new_style ++ post) c' ->
    substituted ((old_style, new_style) :: replacements) c c'
| substituted_absent old_style new_style replacements c c' :
    (forall pre post, c <> pre ++ style_attr old_style ++ post) ->
    substituted replacements c c' ->
    substituted ((old_style, new_style) :: replacements) c c'.

(** [leftmost sub s pre post]: [pre ++ sub ++ post] is [s], split at the
    leftmost occurrence of [sub]. *)
Definition leftmost (sub s pre post : str) : Prop :=
  s = pre ++ sub ++ post
  /\ forall pre' post', s = pre' ++ sub ++ post' -> length pre <= length pre'.

(** [replaced_all old new s s']: [s'] is [s] with every occurrence of [old]
    replaced by [new], the occurrences being taken from the left and not
    overlapping. *)
Inductive replaced_all (old new : str) : str -> str -> Prop :=
| replaced_none s :
    (forall a b, s <> a ++ old ++ b) -> replaced_all old new s s
| replaced_leftmost s a b b' :
    leftmost old s a b ->
    replaced_all old new b b' ->
    replaced_all old new s (a ++ new ++ b').

(** The results of the calls of [download_image] in the loop over
    [matches], in order, when the loop starts after the history [h]; a
    result that [if new_path:] does not take counts as [None]. *)
Fixpoint outcomes_of (env : environment) (matches : list (str * str)) (h : history)
  : list (option str) :=
  match matches with
  | [] => []
  | (_, image_path) :: matches' =>
      let h1 := h ++ [EvPrint (Found image_path)] in
      let '(r, es) := download_image env image_path h1 in
      let new_path :=
        match r with
        | Ret (Some ((_ :: _) as new_path)) => Some new_path
        | _ => None
        end in
      new_path
        :: outcomes_of env matches'
             (h1 ++ es ++ match new_path with
                          | Some new_path => [EvPrint (WillUpdate (new_url_of new_path))]
                          | None => []
                          end)
  end.

(** [style_follows s]: the text [s] goes on to the next double quote and
    from there, with no ['>'] on the way, to the text [style=] followed by
    a double quote. *)
Definition style_follows (s : str) : bool :=
  match partition [dq] s with
  | Some (_, s') =>
      match partition (text "style=" ++ [dq]) s' with
      | Some (B, _) => forallb (not_char gt) B
      | None => false
      end
  | None => false
  end.

(** [class_then_style c]: somewhere in [c] the marker class is followed in
    this way: by the quote that closes its attribute and then, before the
    next ['>'], by the text [style=] and a double quote. *)
Fixpoint class_then_style (c : str) {struct c} : bool :=
  match strip_prefix marker c with
  | Some s => style_follows s
  | None => false
  end
  || match c with
     | [] => false
     | _ :: c' => class_then_style c'
     end.

Module ConsoleScenarios.

Import Scenario.

(** A console with the encoding [ascii]: the lines with a check mark or a
    cross cannot be printed. *)
Definition ascii_console : history -> message -> option error :=
  fun _ m =>
    match m with
    | Saved _ | Failed _ _ | WillUpdate _ | SavedHtml _ | Complete =>
        Some (text "UnicodeEncodeError")
    | _ => None
    end.

(** A console that takes every line. *)
Definition utf8_console : history -> message -> option error := fun _ _ => None.

(** A server that answers the first request only. *)
Definition serves_once (doc : str) : environment :=
  {| http_get := fun h _ => match requested h with [] => ok | _ :: _ => not_found end;
     fs_mkdir_parent := fun _ _ => None;
     fs_write_bytes := fun _ _ _ => None;
     fs_read_text := fun _ _ => inl doc;
     fs_write_text := fun _ _ _ => None;
     fs_exists := fun _ _ => true;
     fs_glob := fun _ _ _ => [index_html] |}.

End ConsoleScenarios.

(** * Facts about strings *)

Section StrFacts.

Lemma strip_prefix_Some p : forall s r, strip_prefix p s = Some r -> s = p ++ r.
Proof.
  induction p as [|a p IH]; intros [|b s] r H; simpl in *; try congruence.
  destruct (N.eqb_spec a b) as [->|]; [|discriminate].
  f_equal. now apply IH.
Qed.

Lemma strip_prefix_app p r : strip_prefix p (p ++ r) = Some r.
Proof.
  induction p as [|a p IH]; simpl.
  - now destruct r.
  - now rewrite N.eqb_refl.
Qed.

Lemma strip_prefix_None p s : strip_prefix p s = None -> forall r, s <> p ++ r.
Proof.
  intros H r ->. rewrite strip_prefix_app in H. discriminate.
Qed.

Lemma partition_eq sep s :
  partition sep s =
  match strip_prefix sep s with
  | Some post => Some ([], post)
  | None =>
      match s with
      | [] => None
      | c :: s' =>
          match partition sep s' with
          | Some (pre, post) => Some (c :: pre, post)
          | None => None
          end
      end
  end.
Proof. destruct s; reflexivity. Qed.

Lemma partition_Some sep : forall s pre post,
  partition sep s = Some (pre, post) -> s = pre ++ sep ++ post.
Proof.
  induction s as [|c s IH]; intros pre post H; simpl in H.
  - destruct (strip_prefix sep []) eqn:E; [|discriminate].
    injection H as <- <-. now apply strip_prefix_Some in E.
  - destruct (strip_prefix sep (c :: s)) eqn:E.
    + injection H as <- <-. now apply strip_prefix_Some in E.
    + destruct (partition sep s) as [[pre' post']|] eqn:E'; [|discriminate].
      injection H as <- <-. simpl. f_equal. now apply IH.
Qed.

(** The occurrence found by [partition] is the leftmost one. *)
Lemma partition_first sep : forall s pre post,
  partition sep s = Some (pre, post) ->
  forall pre' post', s = pre' ++ sep ++ post' -> length pre <= length pre'.
Proof.
  induction s as [|c s IH]; intros pre post H pre' post' Hs; simpl in H.
  - destruct (strip_prefix sep []); [|discriminate].
    injection H as <- <-. simpl. lia.
  - destruct (strip_prefix sep (c :: s)) eqn:E.
    + injection H as <- <-. simpl. lia.
    + destruct (partition sep s) as [[p1 p2]|] eqn:E'; [|discriminate].
      injection H as <- <-.
      destruct pre' as [|c' pre'].
      * exfalso. now apply (strip_prefix_None _ _ E post').
      * simpl in Hs. injection Hs as _ Hs. simpl.
        apply le_n_S. now apply (IH _ _ eq_refl _ post').
Qed.

Lemma partition_found sep : forall pre' post',
  exists pre post, partition sep (pre' ++ sep ++ post') = Some (pre, post).
Proof.
  induction pre' as [|c pre' IH]; intros post'.
  - simpl. rewrite partition_eq, strip_prefix_app. eauto.
  - simpl. destruct (strip_prefix sep (c :: pre' ++ sep ++ post')); eauto.
    destruct (IH post') as (pre & post & ->). eauto.
Qed.

Lemma partition_None sep s :
  partition sep s = None -> forall pre post, s <> pre ++ sep ++ post.
Proof.
  intros H pre post ->.
  destruct (partition_found sep pre post) as (? & ? & E). congruence.
Qed.

Lemma partition_length sep s pre post :
  partition sep s = Some (pre, post) -> length s = length pre + length sep + length post.
Proof.
  intros H. apply partition_Some in H. subst. rewrite !length_app. lia.
Qed.

(** [s.replace(old, new, 1)] either finds nothing and returns [s], or
    replaces the leftmost occurrence and keeps what is around it. *)
Lemma replace_first old new s :
  old <> [] ->
  (partition old s = None /\ str_replace s old new (Some 1) = s)
  \/ (exists pre post, partition old s = Some (pre, post)
                       /\ str_replace s old new (Some 1) = pre ++ new ++ post).
Proof.
  intros Hold. unfold str_replace. destruct old as [|o old]; [congruence|].
  cbn [replace_upto].
  destruct (partition (o :: old) s) as [[pre post]|]; eauto.
Qed.

Lemma replace_upto_nil old new n : old <> [] -> replace_upto n [] old new = [].
Proof.
  intros Hold. destruct n; [reflexivity|].
  destruct old; [congruence|reflexivity].
Qed.

(** More turns than the text has characters change nothing. *)
Lemma replace_upto_enough old new :
  old <> [] ->
  forall n m s, length s <= n -> length s <= m ->
                replace_upto n s old new = replace_upto m s old new.
Proof.
  intros Hold. induction n as [|n IH]; intros m s Hn Hm.
  - destruct s; [|simpl in Hn; lia]. now rewrite !replace_upto_nil.
  - destruct m as [|m].
    + destruct s; [|simpl in Hm; lia]. now rewrite !replace_upto_nil.
    + cbn [replace_upto].
      destruct (partition old s) as [[pre post]|] eqn:E; [|reflexivity].
      apply partition_length in E.
      assert (0 < length old) by (destruct old; [congruence|simpl; lia]).
      do 2 f_equal. apply IH; lia.
Qed.

(** [s.replace(old, new)] replaces the leftmost occurrence and goes on in
    the text after it. *)
Lemma replace_all_found old new s pre post :
  old <> [] ->
  partition old s = Some (pre, post) ->
  str_replace s old new None = pre ++ new ++ str_replace post old new None.
Proof.
  intros Hold E. unfold str_replace. destruct old as [|o old]; [congruence|].
  change (replace_upto (S (length s)) s (o :: old) new)
    with (match partition (o :: old) s with
          | Some (pre, post) => pre ++ new ++ replace_upto (length s) post (o :: old) new
          | None => s
          end).
  rewrite E. do 2 f_equal.
  apply partition_length in E.
  apply replace_upto_enough; [discriminate| |]; lia.
Qed.

Lemma substr_middle (s x y z : str) i j :
  s = x ++ y ++ z -> i = length x -> j = length (x ++ y) -> substr s i j = y.
Proof.
  intros -> -> ->. unfold substr. rewrite length_app.
  replace (length x + length y - length x) with (length y) by lia.
  rewrite skipn_app, skipn_all, Nat.sub_diag. simpl.
  rewrite firstn_app, firstn_all, Nat.sub_diag. simpl. apply app_nil_r.
Qed.

End StrFacts.

(** * Facts about the matcher *)

Section ReFacts.

Lemma rep_sound cls lo greedy rest : forall s pos n r,
  rep cls lo greedy rest s pos n = Some r ->
  exists u s', s = u ++ s' /\ forallb cls u = true /\ lo <= n + length u
               /\ rest s' (pos + length u) = Some r.
Proof.
  induction s as [|c s IH]; intros pos n r H.
  - assert (Hs : (lo <=? n) = true /\ rest [] pos = Some r).
    { simpl in H. destruct greedy, (lo <=? n); try discriminate; auto.
      destruct (rest [] pos); [auto|discriminate]. }
    destruct Hs as [Hlo Hr]. apply Nat.leb_le in Hlo.
    exists [], []. simpl. rewrite !Nat.add_0_r. auto.
  - assert (Hs : ((lo <=? n) = true /\ rest (c :: s) pos = Some r)
                 \/ (cls c = true /\ rep cls lo greedy rest s (S pos) (S n) = Some r)).
    { simpl in H.
      destruct greedy, (lo <=? n), (cls c);
        try destruct (rep cls lo _ rest s (S pos) (S n));
        try destruct (rest (c :: s) pos);
        try discriminate; auto. }
    destruct Hs as [[Hlo Hr]|[Hc Hr]].
    + apply Nat.leb_le in Hlo. exists [], (c :: s). simpl.
      rewrite !Nat.add_0_r. auto.
    + destruct (IH _ _ _ Hr) as (u & s' & -> & Hu & Hlo & Hk).
      exists (c :: u), s'. simpl. rewrite Hc, Hu.
      replace (pos + S (length u)) with (S pos + length u) by lia.
      repeat split; auto. lia.
Qed.

Lemma run_sound : forall ops s pos m e m',
  run ops s pos m = Some (e, m') ->
  forall done, pos = length done ->
  exists w rest, s = w ++ rest /\ e = length (done ++ w) /\ sem ops done w m m'.
Proof.
  induction ops as [|o ops IH]; intros s pos m e m' H done Hpos.
  - simpl in H. injection H as <- <-. exists [], s.
    rewrite app_nil_r. simpl. auto.
  - destruct o as [l|cls lo greedy|i]; simpl in H.
    + destruct (strip_prefix l s) as [s'|] eqn:E; [|discriminate].
      apply strip_prefix_Some in E. subst s.
      apply IH with (done := done ++ l) in H; [|rewrite length_app; lia].
      destruct H as (w & rest & -> & -> & Hs).
      exists (l ++ w), rest. rewrite <- !app_assoc.
      repeat split; auto. simpl. eauto.
    + apply rep_sound in H. destruct H as (u & s' & -> & Hu & Hlo & Hr).
      apply IH with (done := done ++ u) in Hr; [|rewrite length_app; lia].
      destruct Hr as (w & rest & -> & -> & Hs).
      exists (u ++ w), rest. rewrite <- !app_assoc.
      repeat split; auto. simpl. exists u, w. auto.
    + apply IH with (done := done) in H; [|assumption].
      destruct H as (w & rest & -> & -> & Hs).
      exists w, rest. subst pos. auto.
Qed.

(** Every tuple of [findall] comes from a successful run at some offset. *)
Lemma scan_sound ops : forall s skip g1 g2,
  In (g1, g2) (scan ops s skip) ->
  exists pre suf e m,
    s = pre ++ suf /\ run ops suf 0 [] = Some (e, m)
    /\ g1 = group suf m 1 /\ g2 = group suf m 2.
Proof.
  induction s as [|c s IH]; intros skip g1 g2 H.
  - destruct skip; simpl in H; [|contradiction].
    destruct (run ops [] 0 []) as [[e m]|] eqn:E; [|contradiction].
    destruct H as [H|[]]. injection H as <- <-.
    exists [], [], e, m. auto.
  - destruct skip; simpl in H.
    + destruct (run ops (c :: s) 0 []) as [[e m]|] eqn:E.
      * destruct H as [H|H].
        -- injection H as <- <-. exists [], (c :: s), e, m. auto.
        -- apply IH in H. destruct H as (pre & suf & e' & m' & -> & H).
           exists (c :: pre), suf, e', m'. auto.
      * apply IH in H. destruct H as (pre & suf & e' & m' & -> & H).
        exists (c :: pre), suf, e', m'. auto.
    + apply IH in H. destruct H as (pre & suf & e' & m' & -> & H).
      exists (c :: pre), suf, e', m'. auto.
Qed.

End ReFacts.

(** * The shape of what the pattern matches *)

Section PatternFacts.

Ltac app_eq := repeat rewrite <- app_assoc; cbn [app]; reflexivity.

Lemma match_shape suf e m :
  run pattern suf 0 [] = Some (e, m) ->
  (exists A A' B post,
      suf = (text "class=" ++ [dq]) ++ A ++ marker ++ A' ++ [dq] ++ B
              ++ style_attr (group suf m 1) ++ post
      /\ forallb (not_char dq) A = true
      /\ forallb (not_char dq) A' = true
      /\ forallb (not_char gt) B = true)
  /\ style_shape (group suf m 1) (group suf m 2).
Proof.
  intros H. apply run_sound with (done := []) in H; [|reflexivity].
  destruct H as (w & rest & -> & _ & H).
  unfold pattern in H. cbn [sem] in H.
  destruct H as (w1 & -> & A & w2 & -> & HA & _ & w3 & -> & A' & w4 & -> & HA' & _
                 & w5 & -> & B & w6 & -> & HB & _ & w7 & -> & X & w8 & -> & HX & _
                 & w9 & -> & WS & w10 & -> & HWS & _ & w11 & -> & w12 & ->
                 & P & w13 & -> & HP & HP1 & w14 & -> & T & w15 & -> & HT & _
                 & w16 & -> & -> & ->).
  match goal with |- context [group ?s ?m 1] => set (subject := s); set (ms := m) end.
  assert (G1 : group subject ms 1
               = X ++ text "background-image:" ++ WS
                   ++ old_url_of (text "_/uploads/" ++ P) ++ T).
  { unfold group, ms. cbn [mark Nat.eqb Nat.mul Nat.sub Nat.add].
    eapply substr_middle with (z := [dq] ++ rest); [|reflexivity|].
    - unfold subject, old_url_of. app_eq.
    - f_equal. unfold old_url_of. app_eq. }
  assert (G2 : group subject ms 2 = text "_/uploads/" ++ P).
  { unfold group, ms. cbn [mark Nat.eqb Nat.mul Nat.sub Nat.add].
    eapply substr_middle with (z := text ".html)" ++ T ++ [dq] ++ rest);
      [|reflexivity|].
    - unfold subject. app_eq.
    - f_equal. app_eq. }
  rewrite G1, G2. split.
  - exists A, A', B, rest. repeat split; auto.
    unfold subject, style_attr, old_url_of. app_eq.
  - exists X, WS, P, T. repeat split; auto.
    intros ->. simpl in HP1. lia.
Qed.

(** Every tuple of [findall] is a style value inside a tag of the document
    that carries the marker class before it. *)
Lemma findall_shape c full_style image_path :
  In (full_style, image_path) (findall pattern c) ->
  tag_shape c full_style /\ style_shape full_style image_path.
Proof.
  intros H. apply scan_sound in H.
  destruct H as (pre & suf & e & m & -> & Hrun & -> & ->).
  destruct (match_shape _ _ _ Hrun) as [(A & A' & B & post & Hsuf & HA & HA' & HB) Hst].
  split; [|exact Hst].
  exists pre, A, A', B, post. rewrite <- Hsuf. auto.
Qed.

Lemma style_shape_contains full_style image_path :
  style_shape full_style image_path ->
  exists a b, partition (old_url_of image_path) full_style = Some (a, b).
Proof.
  intros (X & WS & P & T & -> & _).
  replace (X ++ text "background-image:" ++ WS ++ old_url_of image_path ++ T)
    with ((X ++ text "background-image:" ++ WS) ++ old_url_of image_path ++ T)
    by now rewrite <- !app_assoc.
  apply partition_found.
Qed.

Lemma tag_shape_contains c full_style :
  tag_shape c full_style ->
  exists pre post, partition (style_attr full_style) c = Some (pre, post).
Proof.
  intros (pre & A & A' & B & post & -> & _).
  replace (pre ++ (text "class=" ++ [dq]) ++ A ++ marker ++ A' ++ [dq] ++ B
               ++ style_attr full_style ++ post)
    with ((pre ++ (text "class=" ++ [dq]) ++ A ++ marker ++ A' ++ [dq] ++ B)
            ++ style_attr full_style ++ post)
    by now rewrite <- !app_assoc.
  apply partition_found.
Qed.

End PatternFacts.

(** * Facts about the fetcher *)

Section FetcherFacts.

Variable env : environment.

Lemma attempt_runs rp ext h :
  exists r es, attempt env rp ext h = (Ret r, es) /\ attempt_run rp ext r es.
Proof.
  unfold attempt, bind, try_except, print, requests_get, mkdir_parent, write_bytes, ret.
  cbn [app].
  destruct (http_get env (h ++ [EvPrint (Trying (url_of rp ext))]) (url_of rp ext))
    as [resp|e] eqn:G.
  - destruct (Z.eqb_spec (status_code resp) 200) as [S200|S200].
    + destruct (fs_mkdir_parent env _ _) as [e|] eqn:Emk; cbn [raised app].
      * eexists _, _. split; [reflexivity|]. now apply mkdir_raises.
      * destruct (fs_write_bytes env _ _ _) as [e|] eqn:Ewr; cbn [raised app].
        -- eexists _, _. split; [reflexivity|]. now apply write_raises.
        -- eexists _, _. split; [reflexivity|]. now apply downloaded.
    + eexists _, _. split; [reflexivity|]. now apply get_not_200.
  - eexists _, _. split; [reflexivity|]. apply get_raises.
Qed.

Lemma try_extensions_runs rp : forall exts h,
  exists r es, try_extensions env rp exts h = (Ret r, es) /\ fetch_run rp exts r es.
Proof.
  induction exts as [|ext exts IH]; intros h.
  - exists None, []. split; [reflexivity|constructor].
  - cbn [try_extensions]. unfold bind at 1.
    destruct (attempt_runs rp ext h) as (r & es & -> & Hrun).
    destruct r as [ref|].
    + exists (Some ref), es. unfold ret. rewrite app_nil_r.
      split; [reflexivity|]. now apply fetch_hit.
    + destruct (IH (h ++ es)) as (r' & es' & -> & Hrun').
      exists r', (es ++ es'). split; [reflexivity|]. now apply fetch_next with (es := es).
Qed.

Lemma download_image_runs image_path h :
  exists r es, download_image env image_path h = (Ret r, es)
               /\ fetch_run (remote_path_of image_path) extensions r es.
Proof. apply try_extensions_runs. Qed.

End FetcherFacts.

(** * What every run of the fetcher looks like *)

Set Implicit Arguments.

Section FetchRunFacts.

Variable rp : str.

Lemma requested_app es es' : requested (es ++ es') = requested es ++ requested es'.
Proof. apply flat_map_app. Qed.

Lemma answers_app es es' : answers (es ++ es') = answers es ++ answers es'.
Proof. apply flat_map_app. Qed.

Lemma saved_app es es' : saved (es ++ es') = saved es ++ saved es'.
Proof. apply flat_map_app. Qed.

Lemma written_app es es' : written (es ++ es') = written es ++ written es'.
Proof. apply flat_map_app. Qed.

Lemma attempt_run_one_request ext r es :
  attempt_run rp ext r es ->
  requested es = [url_of rp ext] /\ length (answers es) = 1.
Proof. destruct 1; auto. Qed.

Lemma attempt_run_missed ext es :
  attempt_run rp ext None es -> saved es = [].
Proof. inversion 1; reflexivity. Qed.

Lemma attempt_run_hit ext ref es :
  attempt_run rp ext (Some ref) es ->
  exists resp,
    ref = reference_of rp ext /\ answers es = [inl resp]
    /\ status_code resp = 200%Z
    /\ saved es = [(local_path_of rp ext, content resp)].
Proof. inversion 1; subst. exists resp. auto. Qed.

Lemma attempt_run_all_failed ext r es :
  attempt_run rp ext r es -> forallb failed (answers es) = true -> r = None.
Proof.
  destruct 1 as [| | | |resp S200]; auto.
  cbn. rewrite S200. discriminate.
Qed.

(** The extensions are tried from the left; after the one that is saved
    no other is tried, and without one that is saved all are tried. *)
Lemma fetch_run_order exts r es :
  fetch_run rp exts r es ->
  exists k,
    requested es = map (url_of rp) (firstn k exts)
    /\ length (answers es) = k
    /\ match r with
       | Some ref =>
           exists ext resp,
             0 < k /\ nth_error exts (pred k) = Some ext
             /\ ref = reference_of rp ext
             /\ nth_error (answers es) (pred k) = Some (inl resp)
             /\ status_code resp = 200%Z
             /\ saved es = [(local_path_of rp ext, content resp)]
       | None => k = length exts /\ saved es = []
       end.
Proof.
  induction 1 as [|ext exts ref es Hhit|ext exts es r es' Hmiss Hrest IH].
  - exists 0. auto.
  - destruct (attempt_run_one_request Hhit) as [Hreq Hlen].
    destruct (attempt_run_hit Hhit) as (resp & -> & Hans & S200 & Hsaved).
    exists 1. rewrite Hreq, Hans. repeat split.
    exists ext, resp. repeat split; auto.
  - destruct (attempt_run_one_request Hmiss) as [Hreq Hlen].
    pose proof (attempt_run_missed Hmiss) as Hsaved.
    destruct IH as (k & IHreq & IHlen & IHr).
    exists (S k). rewrite requested_app, answers_app, saved_app, length_app.
    rewrite Hreq, IHreq, Hlen, IHlen, Hsaved. repeat split.
    destruct r as [ref|].
    + destruct IHr as (ext' & resp & Hk & Hnth & -> & Hans & S200 & Hsv).
      exists ext', resp. cbn [pred]. repeat split; auto; try lia.
      * destruct k; [lia|]. exact Hnth.
      * destruct k; [lia|]. cbn [pred] in Hans.
        rewrite nth_error_app2 by lia. rewrite Hlen.
        now replace (S k - 1) with k by lia.
    + destruct IHr as [-> ->]. auto.
Qed.

Lemma fetch_run_all_failed exts r es :
  fetch_run rp exts r es -> forallb failed (answers es) = true ->
  r = None /\ requested es = map (url_of rp) exts.
Proof.
  induction 1 as [|ext exts ref es Hhit|ext exts es r es' Hmiss Hrest IH]; intros Hfail.
  - auto.
  - apply (attempt_run_all_failed Hhit) in Hfail. discriminate.
  - rewrite answers_app, forallb_app in Hfail.
    apply andb_true_iff in Hfail as [_ Hfail].
    destruct (IH Hfail) as [-> Hreq].
    destruct (attempt_run_one_request Hmiss) as [Hreq0 _].
    now rewrite requested_app, Hreq0, Hreq.
Qed.

Lemma attempt_run_events ext r es e :
  attempt_run rp ext r es -> In e es ->
  match e with
  | EvPrint _ => True
  | EvGet url _ => url = url_of rp ext
  | EvMkdirParent path _ => path = local_path_of rp ext
  | EvWriteBytes path _ _ => path = local_path_of rp ext
  | _ => False
  end.
Proof.
  destruct 1; cbn [In]; intros Hin;
    repeat (destruct Hin as [<-|Hin]; [exact I || reflexivity|]); contradiction.
Qed.

(** Every request and every write of a run is for one of the extensions,
    on the same remote path. *)
Lemma fetch_run_events exts r es e :
  fetch_run rp exts r es -> In e es ->
  match e with
  | EvPrint _ => True
  | EvGet url _ => exists ext, In ext exts /\ url = url_of rp ext
  | EvMkdirParent path _ => exists ext, In ext exts /\ path = local_path_of rp ext
  | EvWriteBytes path _ _ => exists ext, In ext exts /\ path = local_path_of rp ext
  | _ => False
  end.
Proof.
  induction 1 as [|ext exts ref es Hhit|ext exts es r es' Hmiss Hrest IH]; intros Hin.
  - contradiction.
  - pose proof (attempt_run_events e Hhit Hin) as He.
    destruct e; auto; exists ext; cbn [In]; auto.
  - apply in_app_or in Hin as [Hin|Hin].
    + pose proof (attempt_run_events e Hmiss Hin) as He.
      destruct e; auto; exists ext; cbn [In]; auto.
    + specialize (IH Hin).
      destruct e; auto; destruct IH as (ext' & Hext & ->);
        exists ext'; cbn [In]; auto.
Qed.

Lemma fetch_run_reference exts ref es :
  fetch_run rp exts (Some ref) es ->
  exists ext data,
    In ext exts /\ ref = reference_of rp ext
    /\ In (EvWriteBytes (local_path_of rp ext) data None) es.
Proof.
  remember (Some ref) as r eqn:Er.
  induction 1 as [|ext exts ref' es Hhit|ext exts es r es' Hmiss Hrest IH].
  - discriminate.
  - injection Er as ->. inversion Hhit; subst.
    exists ext, (content resp). cbn [In]. auto 10.
  - destruct (IH Er) as (ext' & data & Hext & -> & Hin).
    exists ext', data. cbn [In]. repeat split; auto.
    apply in_or_app. auto.
Qed.

Lemma fetch_run_reference_not_empty exts ref es :
  fetch_run rp exts (Some ref) es -> ref <> [].
Proof.
  intros H. destruct (fetch_run_reference H) as (ext & _ & _ & -> & _).
  discriminate.
Qed.

(** The fetcher reads no text and writes none back. *)
Lemma fetch_run_no_text exts r es path :
  fetch_run rp exts r es ->
  written es = []
  /\ (forall a, ~ In (EvReadText path a) es)
  /\ (forall data a, ~ In (EvWriteText path data a) es).
Proof.
  intros H. repeat split.
  - induction H as [|ext exts ref es Hhit|ext exts es r es' Hmiss Hrest IH].
    + reflexivity.
    + inversion Hhit; reflexivity.
    + rewrite written_app, IH. inversion Hmiss; reflexivity.
  - intros a Hin. apply (fetch_run_events _ H Hin).
  - intros data a Hin. apply (fetch_run_events _ H Hin).
Qed.

End FetchRunFacts.

(** * Facts about the rewriter *)

Section RewriterFacts.
Variable env : environment.

Lemma process_html_file_eq fp h c :
  fs_read_text env (h ++ [EvPrint (Processing fp)]) fp = inl c ->
  process_html_file env fp h =
  let es0 := [EvPrint (Processing fp); EvReadText fp (inl c)] in
  match findall pattern c with
  | [] => (Ret false, es0 ++ [EvPrint NoElements])
  | (_ :: _) as matches =>
      let (r, es) := for_matches env matches (false, []) (h ++ es0) in
      match r with
      | Ret (true, replacements) =>
          let w := apply_replacements c replacements in
          let a := fs_write_text env (h ++ es0 ++ es) fp w in
          (raised a true,
           es0 ++ es ++ EvWriteText fp w a
               :: match a with
                  | None => [EvPrint (SavedHtml fp);
                             EvPrint (TotalChanges (length replacements))]
                  | Some _ => []
                  end)
      | Ret (false, _) => (Ret false, es0 ++ es)
      | Raise x => (Raise x, es0 ++ es)
      end
  end.
Proof.
  intros Hread.
  unfold process_html_file, bind, print, read_text. cbn [app]. rewrite Hread.
  destruct (findall pattern c) as [|m ms] eqn:Hfind.
  - reflexivity.
  - cbn [app]. rewrite <- !app_assoc. cbn [app].
    destruct (for_matches env (m :: ms) (false, []) _) as [[[[|] reps]|x] es].
    + unfold write_text, ret. rewrite <- ?app_assoc. cbn [app].
      destruct (fs_write_text env _ fp _); cbn [raised app]; rewrite ?app_nil_r; reflexivity.
    + unfold ret. rewrite app_nil_r. reflexivity.
    + reflexivity.
Qed.

Lemma written_nil_no_write es :
  written es = [] -> forall path data a, ~ In (EvWriteText path data a) es.
Proof.
  induction es as [|e es IH]; intros H path data a Hin; [contradiction|].
  destruct Hin as [Hin|Hin].
  - subst e. discriminate.
  - destruct e; try discriminate; now apply (IH H path data a).
Qed.

(** The loop over the matches never raises, records replacements for
    matches only, and writes no text. *)
Lemma for_matches_runs all : forall matches st h,
  incl matches all -> recorded all (snd st) ->
  exists st' es,
    for_matches env matches st h = (Ret st', es)
    /\ recorded all (snd st') /\ written es = [].
Proof.
  induction matches as [|[full_style image_path] matches IH]; intros st h Hincl Hrec.
  - exists st, []. auto.
  - assert (Hin : In (full_style, image_path) all) by (apply Hincl; now left).
    assert (Hincl' : incl matches all) by (intros x Hx; apply Hincl; now right).
    cbn [for_matches]. unfold bind at 1 2, print. cbn [app].
    destruct (download_image_runs env image_path (h ++ [EvPrint (Found image_path)]))
      as (r & es1 & -> & Hrun).
    destruct (fetch_run_no_text [] Hrun) as (Hw1 & _).
    assert (Hskip : exists st' es,
               for_matches env matches st
                 ((h ++ [EvPrint (Found image_path)]) ++ es1) = (Ret st', es)
               /\ recorded all (snd st') /\ written es = []) by now apply IH.
    destruct r as [[|x ref]|].
    + destruct Hskip as (st' & es & -> & Hrec' & Hw).
      exists st', (EvPrint (Found image_path) :: es1 ++ es).
      repeat split; auto. cbn. now rewrite written_app, Hw1, Hw.
    + unfold bind, print. cbn [app].
      match goal with
      | |- context [for_matches env matches ?st1 ?h1] =>
          destruct (IH st1 h1 Hincl') as (st' & es & -> & Hrec' & Hw)
      end.
      { cbn [snd]. apply Forall_app. split; [exact Hrec|].
        constructor; [|constructor]. exists image_path, (x :: ref). auto. }
      eexists st', _. split; [reflexivity|]. split; [exact Hrec'|].
      cbn. rewrite written_app, Hw1. cbn. exact Hw.
    + destruct Hskip as (st' & es & -> & Hrec' & Hw).
      exists st', (EvPrint (Found image_path) :: es1 ++ es).
      repeat split; auto. cbn. now rewrite written_app, Hw1, Hw.
Qed.

Lemma apply_replacements_rewritten all : forall replacements c,
  recorded all replacements -> rewritten all c (apply_replacements c replacements).
Proof.
  induction replacements as [|[old_style new_style] reps IH]; intros c Hrec.
  - constructor.
  - apply Forall_cons_iff in Hrec as [(image_path & new_path & Hin & ->) Hrec'].
    unfold apply_replacements. cbn [fold_left].
    destruct (replace_first (style_attr old_style)
                (style_attr (str_replace old_style (old_url_of image_path)
                               (new_url_of new_path) None)) c)
      as [[_ ->]|(pre & post & Hpart & ->)]; [discriminate| |].
    + now apply IH.
    + apply rewritten_step
        with (pre := pre) (post := post) (old_style := old_style)
             (image_path := image_path) (new_path := new_path).
      * exact Hin.
      * now apply partition_Some.
      * now apply partition_first with (post := post).
      * now apply IH.
Qed.

(** A run writes back at most once, and what it writes is the text read
    with the recorded replacements applied. *)
Lemma process_written fp h c :
  fs_read_text env (h ++ [EvPrint (Processing fp)]) fp = inl c ->
  written (snd (process_html_file env fp h)) = []
  \/ exists replacements,
       recorded (findall pattern c) replacements
       /\ written (snd (process_html_file env fp h))
          = [(fp, apply_replacements c replacements)].
Proof.
  intros Hread. rewrite (process_html_file_eq _ _ Hread). cbv zeta.
  destruct (findall pattern c) as [|m ms] eqn:Hfind; [now left|].
  destruct (@for_matches_runs (m :: ms) (m :: ms) (false, [])
              (h ++ [EvPrint (Processing fp); EvReadText fp (inl c)]))
    as ([modified reps] & es & -> & Hrec & Hw);
    [apply incl_refl|constructor|].
  destruct modified; cbn [snd].
  - right. exists reps. split; [exact Hrec|].
    cbn. rewrite written_app, Hw. cbn.
    destruct (fs_write_text env _ fp _); reflexivity.
  - left. cbn. exact Hw.
Qed.

End RewriterFacts.

(** * A document with one match, and documents with none *)

Section SingleMatch.

Variable env : environment.
Variables (filepath : str) (h : history) (c full_style image_path : str).

Hypothesis Hread :
  fs_read_text env (h ++ [EvPrint (Processing filepath)]) filepath = inl c.
Hypothesis Hfind : findall pattern c = [(full_style, image_path)].

(** The history when the fetcher is called for the match. *)
Let h1 : history :=
  h ++ [EvPrint (Processing filepath); EvReadText filepath (inl c);
        EvPrint (Found image_path)].

Lemma process_single_hit ref :
  fst (download_image env image_path h1) = Ret (Some ref) ->
  written (snd (process_html_file env filepath h))
  = [(filepath,
      str_replace c (style_attr full_style)
        (style_attr (str_replace full_style (old_url_of image_path)
                       (new_url_of ref) None)) (Some 1))].
Proof.
  intros Hfetch. rewrite (process_html_file_eq _ _ _ Hread), Hfind. cbv zeta.
  cbn [for_matches]. unfold bind at 1 2, print. cbn [app].
  rewrite <- app_assoc. cbn [app]. fold h1.
  destruct (download_image_runs env image_path h1) as (r & es & Hrun & Hfetchrun).
  rewrite Hrun in Hfetch |- *. cbn [fst] in Hfetch. injection Hfetch as ->.
  pose proof (fetch_run_reference_not_empty Hfetchrun) as Hne.
  destruct (fetch_run_no_text [] Hfetchrun) as (Hw & _).
  destruct ref as [|x ref]; [congruence|].
  unfold bind, print, ret. cbn [app snd fst].
  unfold written in *. cbn [flat_map app]. rewrite !flat_map_app, Hw.
  cbn [flat_map app].
  destruct (fs_write_text env _ filepath _); reflexivity.
Qed.

Lemma process_single_miss :
  fst (download_image env image_path h1) = Ret None ->
  process_html_file env filepath h
  = (Ret false,
     [EvPrint (Processing filepath); EvReadText filepath (inl c);
      EvPrint (Found image_path)] ++ snd (download_image env image_path h1)).
Proof.
  intros Hfetch. rewrite (process_html_file_eq _ _ _ Hread), Hfind. cbv zeta.
  cbn [for_matches]. unfold bind at 1 2, print. cbn [app].
  rewrite <- app_assoc. cbn [app]. fold h1.
  destruct (download_image env image_path h1) as [r es].
  cbn [fst] in Hfetch. subst r. unfold ret. cbn [snd app].
  now rewrite app_nil_r.
Qed.

End SingleMatch.

Section NoMatch.

Variable env : environment.

Lemma quiet_app es es' : quiet es -> quiet es' -> quiet (es ++ es').
Proof.
  intros [Hr Hd] [Hr' Hd']. split.
  - now rewrite requested_app, Hr, Hr'.
  - now rewrite filter_app, Hd, Hd'.
Qed.

Lemma process_no_match filepath h c :
  fs_read_text env (h ++ [EvPrint (Processing filepath)]) filepath = inl c ->
  findall pattern c = [] ->
  process_html_file env filepath h
  = (Ret false,
     [EvPrint (Processing filepath); EvReadText filepath (inl c); EvPrint NoElements]).
Proof.
  intros Hread Hfind. rewrite (process_html_file_eq _ _ _ Hread), Hfind. reflexivity.
Qed.

Hypothesis Hmigrated : all_migrated env.

Lemma process_quiet filepath h : quiet (snd (process_html_file env filepath h)).
Proof.
  destruct (fs_read_text env (h ++ [EvPrint (Processing filepath)]) filepath)
    as [c|e] eqn:Hread.
  - rewrite (process_no_match _ _ Hread (Hmigrated _ _ Hread)). now split.
  - unfold process_html_file, bind, print, read_text. cbn [app].
    rewrite Hread. now split.
Qed.

Lemma for_files_quiet : forall html_files counts h,
  quiet (snd (for_files env html_files counts h)).
Proof.
  induction html_files as [|f fs IH]; intros counts h.
  - now split.
  - cbn [for_files]. unfold bind at 1, read_text.
    destruct (fs_read_text env h f) as [data|e]; [|now split].
    destruct (contains data marker).
    + unfold bind.
      pose proof (process_quiet f (h ++ [EvReadText f (inl data)])) as Hq.
      destruct (process_html_file env f (h ++ [EvReadText f (inl data)]))
        as [[success|x] es]; cbn [snd] in *.
      * match goal with
        | |- context [for_files env fs ?n ?h'] =>
            pose proof (IH n h') as Hq'; destruct (for_files env fs n h') as [r' es']
        end.
        cbn [snd] in *.
        apply (quiet_app (es := [EvReadText f (inl data)])); [now split|].
        now apply quiet_app.
      * apply (quiet_app (es := [EvReadText f (inl data)])); [now split|exact Hq].
    + match goal with
      | |- context [for_files env fs ?n ?h'] =>
          pose proof (IH n h') as Hq'; destruct (for_files env fs n h') as [r' es']
      end.
      cbn [snd] in *.
      apply (quiet_app (es := [EvReadText f (inl data)])); [now split|exact Hq'].
Qed.

Lemma main_quiet h : quiet (snd (main env h)).
Proof.
  unfold main. cbv zeta. unfold bind at 1, path_exists.
  destruct (fs_exists env h (text "_")); cbn [negb].
  - unfold bind at 1, glob.
    destruct (fs_glob env _ (text "_") (text "*.html")) as [|f fs] eqn:Hglob.
    + now split.
    + unfold bind at 1 2, print. cbn [app].
      unfold bind at 1.
      match goal with
      | |- context [for_files env (f :: fs) ?n ?h'] =>
          pose proof (for_files_quiet (f :: fs) n h') as Hq;
          destruct (for_files env (f :: fs) n h') as [[counts|x] es]
      end; cbn [snd] in *.
      * apply (quiet_app (es := [EvExists (text "_") true]));
          [now split|].
        apply (quiet_app (es := [EvGlob (text "_") (text "*.html") (f :: fs)]));
          [now split|].
        apply (quiet_app (es := [EvPrint (FoundFiles (length (f :: fs)));
                                 EvPrint ProcessingAll])); [now split|].
        apply quiet_app; [exact Hq|]. now split.
      * apply (quiet_app (es := [EvExists (text "_") true]));
          [now split|].
        apply (quiet_app (es := [EvGlob (text "_") (text "*.html") (f :: fs)]));
          [now split|].
        apply (quiet_app (es := [EvPrint (FoundFiles (length (f :: fs)));
                                 EvPrint ProcessingAll])); [now split|].
        exact Hq.
  - now split.
Qed.

End NoMatch.

(** * The properties of the specification *)

Unset Implicit Arguments.
Import Scenario.

(** ** The fetcher *)


(** ** The rewriter *)

(** C1. What [process_html_file] writes back – to the file it read, and
    nowhere else – is reached from the text it read by replacements of whole
    [style="..."] attributes whose value was captured by a match of the
    pattern; each replacement takes the leftmost occurrence of the attribute
    in the working text and keeps every character before and after it. *)
Theorem only_captured_style_values_change env filepath h c path w :
  fs_read_text env (h ++ [EvPrint (Processing filepath)]) filepath = inl c ->
  In (path, w) (written (snd (process_html_file env filepath h))) ->
  path = filepath /\ rewritten (findall pattern c) c w.
Proof.
  intros Hread Hin.
  destruct (process_written env _ _ Hread) as [Hw|(reps & Hrec & Hw)];
    rewrite Hw in Hin.
  - contradiction.
  - destruct Hin as [Hin|[]]. injection Hin as <- <-.
    split; [reflexivity|]. now apply apply_replacements_rewritten.
Qed.

Lemma only_captured_style_values_change_witness :
  index_html = index_html
  /\ rewritten (findall pattern doc_twins) doc_twins (doc_migrated ++ doc_migrated).
Proof.
  apply (only_captured_style_values_change
           (mock serve_all any_path doc_twins) index_html [] doc_twins
           index_html (doc_migrated ++ doc_migrated)).
  - reflexivity.
  - vm_compute. left. reflexivity.
Defined.

(** C2, as stated, fails: the style value of [doc_twins] occurs twice, both
    occurrences are matches, each match records its own replacement, and
    both occurrences are substituted – none is left. *)
Lemma twins_are_both_substituted :
  occurrences doc_twins (style_attr style_a) = 2
  /\ findall pattern doc_twins = [(style_a, path_a); (style_a, path_a)]
  /\ written (snd (process_html_file (mock serve_all any_path doc_twins) index_html []))
     = [(index_html, doc_migrated ++ doc_migrated)]
  /\ occurrences (doc_migrated ++ doc_migrated) (style_attr style_a) = 0.
Proof. vm_compute. repeat split. Qed.

(** C5. When nothing in the file matches, [process_html_file] prints,
    reads the file, prints that it found nothing and returns [False]:
    nothing is requested and nothing on the disk is written. *)
Theorem no_match_no_write env filepath h c :
  fs_read_text env (h ++ [EvPrint (Processing filepath)]) filepath = inl c ->
  findall pattern c = [] ->
  process_html_file env filepath h
  = (Ret false,
     [EvPrint (Processing filepath); EvReadText filepath (inl c); EvPrint NoElements])
  /\ filter touches_disk (snd (process_html_file env filepath h)) = []
  /\ requested (snd (process_html_file env filepath h)) = [].
Proof.
  intros Hread Hfind. rewrite (process_no_match env _ _ Hread Hfind). auto.
Qed.

Lemma no_match_no_write_witness :
  process_html_file (mock serve_all any_path elem_style_first) index_html []
  = (Ret false,
     [EvPrint (Processing index_html); EvReadText index_html (inl elem_style_first);
      EvPrint NoElements])
  /\ filter touches_disk
       (snd (process_html_file (mock serve_all any_path elem_style_first) index_html []))
     = []
  /\ requested
       (snd (process_html_file (mock serve_all any_path elem_style_first) index_html []))
     = [].
Proof.
  apply (no_match_no_write (mock serve_all any_path elem_style_first) index_html []
           elem_style_first); vm_compute; reflexivity.
Defined.

(** C6. When the document has one match and the fetcher returns nothing
    for it, [process_html_file] returns [False] and does nothing after the
    fetcher: no text is written back and no image was saved. *)
Theorem failed_fetch_no_write env filepath h c full_style image_path :
  fs_read_text env (h ++ [EvPrint (Processing filepath)]) filepath = inl c ->
  findall pattern c = [(full_style, image_path)] ->
  fst (download_image env image_path
         (h ++ [EvPrint (Processing filepath); EvReadText filepath (inl c);
                EvPrint (Found image_path)])) = Ret None ->
  fst (process_html_file env filepath h) = Ret false
  /\ written (snd (process_html_file env filepath h)) = []
  /\ saved (snd (process_html_file env filepath h)) = [].
Proof.
  intros Hread Hfind Hfetch.
  rewrite (@process_single_miss env filepath h c full_style image_path Hread Hfind Hfetch). cbn [fst snd].
  destruct (download_image_runs env image_path
              (h ++ [EvPrint (Processing filepath); EvReadText filepath (inl c);
                     EvPrint (Found image_path)])) as (r & es & Hrun & Hfetchrun).
  rewrite Hrun in Hfetch |- *. cbn [fst snd] in *. injection Hfetch as ->.
  destruct (fetch_run_no_text [] Hfetchrun) as (Hw & _).
  destruct (fetch_run_order Hfetchrun) as (k & _ & _ & _ & Hs).
  rewrite written_app, saved_app, Hw, Hs. auto.
Qed.

Lemma failed_fetch_no_write_witness :
  fst (process_html_file (mock serve_none any_path doc_one) index_html []) = Ret false
  /\ written (snd (process_html_file (mock serve_none any_path doc_one) index_html [])) = []
  /\ saved (snd (process_html_file (mock serve_none any_path doc_one) index_html [])) = [].
Proof.
  apply (failed_fetch_no_write (mock serve_none any_path doc_one) index_html []
           doc_one style_a path_a); vm_compute; reflexivity.
Defined.



(** The first run of the driver on [doc_one] leaves [doc_migrated] ... *)
Example first_run_migrates :
  written (snd (main (mock serve_all any_path doc_one) []))
  = [(index_html, doc_migrated)].
Proof. vm_compute. reflexivity. Qed.


(** C10, as stated, fails. In [doc_mixed] the first element has its style
    attribute before its class attribute and is not matched – only the
    second element is – yet it is the first element that is rewritten,
    because its [style="..."] text is the first occurrence of the value
    captured from the second, which stays as it was. And an element whose
    style attribute comes before its class attribute is matched when another
    attribute whose name ends in [style] comes after the class attribute:
    the pattern takes the end of [data-style="..."] for a style attribute. *)
Lemma unmatched_element_is_rewritten :
  (findall pattern elem_style_first = []
   /\ findall pattern doc_mixed = [(style_a, path_a)]
   /\ written (snd (process_html_file (mock serve_all any_path doc_mixed) index_html []))
      = [(index_html,
          html "<p style='background-image: url(./uploads/a.png)' class='wsite-section-bg-image'></p>"
            ++ doc_one)])
  /\ findall pattern MoreScenarios.elem_data_style = [(style_a, path_a)].
Proof. vm_compute. repeat split. Qed.

(** * Every run of the rewriter and of the driver *)

Set Implicit Arguments.

Section Runs.

Variable env : environment.

Lemma for_matches_run : forall ms st h,
  exists st' es, for_matches env ms st h = (Ret st', es) /\ matches_run ms st st' es.
Proof.
  induction ms as [|[full_style image_path] ms IH]; intros st h.
  - exists st, []. split; [reflexivity|constructor].
  - cbn [for_matches]. unfold bind at 1 2, print. cbn [app].
    destruct (download_image_runs env image_path (h ++ [EvPrint (Found image_path)]))
      as (r & es1 & -> & Hrun).
    destruct r as [ref|].
    + pose proof (fetch_run_reference_not_empty Hrun) as Hne.
      destruct ref as [|x ref]; [congruence|].
      unfold bind, print. cbn [app].
      match goal with
      | |- context [for_matches env ms ?st1 ?h1] =>
          destruct (IH st1 h1) as (st' & es & -> & Hms)
      end.
      eexists st', _. split; [reflexivity|].
      now apply matches_hit.
    + destruct (IH st ((h ++ [EvPrint (Found image_path)]) ++ es1))
        as (st' & es & -> & Hms).
      eexists st', _. split; [reflexivity|].
      now apply matches_miss.
Qed.

Lemma process_runs filepath h :
  exists r es, process_html_file env filepath h = (r, es) /\ process_run filepath r es.
Proof.
  destruct (fs_read_text env (h ++ [EvPrint (Processing filepath)]) filepath)
    as [c|e] eqn:Hread.
  - rewrite (process_html_file_eq env _ _ Hread). cbv zeta.
    destruct (findall pattern c) as [|m ms] eqn:Hfind.
    + eexists _, _. split; [reflexivity|]. now apply process_nothing_found.
    + destruct (for_matches_run (m :: ms) (false, [])
                  (h ++ [EvPrint (Processing filepath); EvReadText filepath (inl c)]))
        as ([modified reps] & es & -> & Hms).
      rewrite <- Hfind in Hms.
      destruct modified.
      * destruct (fs_write_text env _ filepath _) as [e|]; cbn [raised app].
        -- eexists _, _. split; [reflexivity|]. now apply process_write_raises.
        -- eexists _, _. split; [reflexivity|]. now apply process_written_back.
      * eexists _, _. split; [reflexivity|].
        now apply process_nothing_fetched with (replacements := reps).
  - unfold process_html_file, bind, print, read_text. cbn [app]. rewrite Hread.
    eexists _, _. split; [reflexivity|]. apply process_unreadable.
Qed.

Lemma for_files_runs : forall files counts h,
  exists r es, for_files env files counts h = (r, es) /\ files_run files counts r es.
Proof.
  induction files as [|f fs IH]; intros counts h.
  - eexists _, _. split; [reflexivity|]. cbn [app]. constructor.
  - cbn [for_files]. unfold bind at 1, read_text.
    destruct (fs_read_text env h f) as [data|e].
    + destruct (contains data marker) eqn:Hmark.
      * unfold bind.
        destruct (process_runs f (h ++ [EvReadText f (inl data)]))
          as (r & es & -> & Hrun).
        destruct r as [success|x].
        -- match goal with
           | |- context [for_files env fs ?n ?h'] =>
               destruct (IH n h') as (r' & es' & -> & Hrest)
           end.
           eexists _, _. split; [reflexivity|]. cbn [app].
           now apply files_process with (success := success).
        -- eexists _, _. split; [reflexivity|]. cbn [app]. now apply files_abort.
      * destruct (IH counts (h ++ [EvReadText f (inl data)])) as (r' & es' & -> & Hrest).
        eexists _, _. split; [reflexivity|]. cbn [app]. now apply files_skip.
    + eexists _, _. split; [reflexivity|]. cbn [app]. apply files_unreadable.
Qed.

Lemma main_runs h : exists r es, main env h = (r, es) /\ main_run r es.
Proof.
  unfold main. cbv zeta. unfold bind at 1, path_exists.
  destruct (fs_exists env h (text "_")); cbn [negb].
  - unfold bind at 1, glob.
    destruct (fs_glob env _ (text "_") (text "*.html")) as [|f fs] eqn:Hglob.
    + eexists _, _. split; [reflexivity|]. cbn [app]. apply main_no_files.
    + unfold bind at 1 2, print. cbn [app]. unfold bind at 1.
      match goal with
      | |- context [for_files env (f :: fs) ?n ?h'] =>
          destruct (for_files_runs (f :: fs) n h') as (r & es & -> & Hrun)
      end.
      destruct r as [counts|x].
      * eexists _, _. split; [reflexivity|]. cbn [app].
        apply main_completed; [discriminate|exact Hrun].
      * eexists _, _. split; [reflexivity|]. cbn [app].
        apply main_aborted; [discriminate|exact Hrun].
  - eexists _, _. split; [reflexivity|]. cbn [app]. apply main_no_directory.
Qed.

End Runs.

(** * What every run of the rewriter looks like *)

Section MatchesRunFacts.

Lemma texts_read_app es es' : texts_read (es ++ es') = texts_read es ++ texts_read es'.
Proof. apply flat_map_app. Qed.

Lemma processed_app es es' : processed (es ++ es') = processed es ++ processed es'.
Proof. apply flat_map_app. Qed.

Lemma saved_print m es : saved (EvPrint m :: es) = saved es.
Proof. reflexivity. Qed.

Lemma requested_print m es : requested (EvPrint m :: es) = requested es.
Proof. reflexivity. Qed.

Lemma written_print m es : written (EvPrint m :: es) = written es.
Proof. reflexivity. Qed.

Lemma texts_read_print m es : texts_read (EvPrint m :: es) = texts_read es.
Proof. reflexivity. Qed.

Lemma processed_found p es : processed (EvPrint (Found p) :: es) = processed es.
Proof. reflexivity. Qed.

Lemma processed_will_update u es : processed (EvPrint (WillUpdate u) :: es) = processed es.
Proof. reflexivity. Qed.

Ltac observe :=
  rewrite ?saved_print, ?requested_print, ?written_print, ?texts_read_print,
    ?processed_found, ?processed_will_update,
    ?saved_app, ?requested_app, ?written_app, ?texts_read_app, ?processed_app,
    ?saved_print, ?requested_print, ?written_print, ?texts_read_print,
    ?processed_found, ?processed_will_update.

Lemma fetch_run_bounds rp exts r es :
  fetch_run rp exts r es ->
  length (requested es) <= length exts
  /\ length (saved es) = match r with Some _ => 1 | None => 0 end
  /\ written es = [] /\ texts_read es = [] /\ processed es = [].
Proof.
  induction 1 as [|ext exts ref es Hhit|ext exts es r es' Hmiss Hrest IH].
  - cbn. auto.
  - inversion Hhit; subst. cbn. repeat split; auto. lia.
  - destruct IH as (IHr & IHs & IHw & IHt & IHp).
    assert (Hone : length (requested es) = 1 /\ saved es = [] /\ written es = []
                   /\ texts_read es = [] /\ processed es = [])
      by (inversion Hmiss; subst; cbn; auto).
    destruct Hone as (H1 & H2 & H3 & H4 & H5).
    observe. rewrite H2, H3, H4, H5, IHw, IHt, IHp, !length_app, H1.
    cbn [length app]. repeat split; auto. lia.
Qed.

(** The loop over the matches saves one image for each replacement it
    records, asks for at most three URLs a match, sets [modified] exactly
    when it saves an image, and neither reads nor writes a text. *)
Lemma matches_run_counts ms st st' es :
  matches_run ms st st' es ->
  length (snd st') = length (snd st) + length (saved es)
  /\ length (saved es) <= length ms
  /\ length (requested es) <= 3 * length ms
  /\ fst st' = (fst st || negb (length (saved es) =? 0))%bool
  /\ written es = [] /\ texts_read es = [] /\ processed es = [].
Proof.
  induction 1 as [st|S p ms st st' ref es es' Hfetch Hrest IH
                 |S p ms st st' es es' Hfetch Hrest IH].
  - cbn. rewrite orb_false_r. repeat split; auto.
  - destruct IH as (IHl & IHs & IHr & IHm & IHw & IHt & IHp).
    destruct (fetch_run_bounds Hfetch) as (Fr & Fs & Fw & Ft & Fp).
    cbn [snd fst orb] in IHl, IHm. rewrite length_app in IHl.
    change (length extensions) with 3 in Fr. cbn [length] in *.
    observe. rewrite Fw, Ft, Fp, IHw, IHt, IHp, !length_app, Fs, IHl.
    cbn [app Nat.add Nat.eqb negb]. rewrite orb_true_r.
    repeat split; auto; lia.
  - destruct IH as (IHl & IHs & IHr & IHm & IHw & IHt & IHp).
    destruct (fetch_run_bounds Hfetch) as (Fr & Fs & Fw & Ft & Fp).
    change (length extensions) with 3 in Fr. cbn [length] in *.
    observe. rewrite Fw, Ft, Fp, IHw, IHt, IHp, !length_app, Fs, IHl, IHm.
    cbn [app Nat.add]. repeat split; auto; lia.
Qed.

Lemma matches_run_all_failed ms st st' es :
  matches_run ms st st' es -> forallb failed (answers es) = true ->
  st' = st /\ saved es = [].
Proof.
  induction 1 as [st|S p ms st st' ref es es' Hfetch Hrest IH
                 |S p ms st st' es es' Hfetch Hrest IH]; intros Hfail.
  - auto.
  - exfalso.
    change (answers (EvPrint (Found p) :: es ++ EvPrint (WillUpdate (new_url_of ref)) :: es'))
      with (answers (es ++ EvPrint (WillUpdate (new_url_of ref)) :: es')) in Hfail.
    rewrite answers_app, forallb_app in Hfail.
    apply andb_true_iff in Hfail as [Hfail _].
    destruct (fetch_run_all_failed Hfetch Hfail) as [Hnone _]. discriminate.
  - change (answers (EvPrint (Found p) :: es ++ es')) with (answers (es ++ es')) in Hfail.
    rewrite answers_app, forallb_app in Hfail.
    apply andb_true_iff in Hfail as [Hfail Hfail'].
    destruct (IH Hfail') as [-> Hs].
    destruct (fetch_run_bounds Hfetch) as (_ & Fs & _).
    split; [reflexivity|].
    change (saved (EvPrint (Found p) :: es ++ es')) with (saved (es ++ es')).
    rewrite saved_app, Hs, app_nil_r.
    destruct (saved es); [reflexivity|discriminate].
Qed.

Lemma backed_replacement_more all es es' x :
  (forall e, In e es -> In e es') ->
  backed_replacement all es x -> backed_replacement all es' x.
Proof.
  intros Hsub (image_path & ref & Hin & Hnew & R & data & Href & Hsaved).
  exists image_path, ref. repeat split; auto. exists R, data. auto.
Qed.

(** Every replacement the loop records puts in the reference of an image
    it saved. *)
Lemma matches_run_backed all ms st st' es :
  matches_run ms st st' es -> incl ms all ->
  exists news, snd st' = snd st ++ news /\ Forall (backed_replacement all es) news.
Proof.
  induction 1 as [st|S p ms st st' ref es es' Hfetch Hrest IH
                 |S p ms st st' es es' Hfetch Hrest IH]; intros Hincl.
  - exists []. rewrite app_nil_r. auto.
  - destruct IH as (news & Hsnd & Hall); [intros x Hx; apply Hincl; now right|].
    cbn [snd] in Hsnd. rewrite <- app_assoc in Hsnd.
    eexists. split; [exact Hsnd|].
    cbn [app]. constructor.
    + destruct (fetch_run_reference Hfetch) as (ext & data & _ & -> & Hsaved).
      exists p, (reference_of (remote_path_of p) ext). cbn [fst snd].
      repeat split; [apply Hincl; now left|].
      exists (remote_path_of p ++ ext), data. split; [reflexivity|].
      right. apply in_or_app. now left.
    + eapply Forall_impl; [|exact Hall].
      intros x. apply backed_replacement_more.
      intros e He. right. apply in_or_app. right. now right.
  - destruct IH as (news & Hsnd & Hall); [intros x Hx; apply Hincl; now right|].
    exists news. split; [exact Hsnd|].
    eapply Forall_impl; [|exact Hall].
    intros x. apply backed_replacement_more.
    intros e He. right. apply in_or_app. now right.
Qed.

(** When every path is under [_/uploads/], every request and every image
    file is under [uploads/]. *)
Lemma matches_run_under_uploads ms st st' es :
  matches_run ms st st' es ->
  (forall full_style image_path,
      In (full_style, image_path) ms -> exists P, image_path = text "_/uploads/" ++ P) ->
  forall e, In e es -> under_uploads e.
Proof.
  assert (Hfetch_ok : forall P r es e,
             fetch_run (remote_path_of (text "_/uploads/" ++ P)) extensions r es ->
             In e es -> under_uploads e).
  { intros P r es0 e0 Hfetch Hin.
    pose proof (fetch_run_events e0 Hfetch Hin) as He.
    change (remote_path_of (text "_/uploads/" ++ P)) with (text "uploads/" ++ P) in He.
    destruct e0; cbn; auto; destruct He as (ext & _ & ->); exists (P ++ ext);
      unfold url_of, local_path_of; now rewrite <- ?app_assoc. }
  induction 1 as [st|S p ms st st' ref es es' Hfetch Hrest IH
                 |S p ms st st' es es' Hfetch Hrest IH]; intros Hpaths e Hin.
  - contradiction.
  - destruct (Hpaths S p) as (P & ->); [now left|].
    destruct Hin as [<-|Hin]; [exact I|].
    apply in_app_or in Hin as [Hin|[<-|Hin]].
    + exact (Hfetch_ok _ _ _ _ Hfetch Hin).
    + exact I.
    + apply IH; [|exact Hin]. intros S' p' H'. apply (Hpaths S' p'). now right.
  - destruct (Hpaths S p) as (P & ->); [now left|].
    destruct Hin as [<-|Hin]; [exact I|].
    apply in_app_or in Hin as [Hin|Hin].
    + exact (Hfetch_ok _ _ _ _ Hfetch Hin).
    + apply IH; [|exact Hin]. intros S' p' H'. apply (Hpaths S' p'). now right.
Qed.

End MatchesRunFacts.

Section ProcessRunFacts.

Ltac unfold_observations :=
  unfold saved, requested, written, texts_read, processed in *;
  cbn [flat_map app] in *; rewrite ?flat_map_app in *; cbn [flat_map app] in *.

Lemma modified_iff_saved (st' : bool * list (str * str)) es :
  fst st' = (false || negb (length (saved es) =? 0))%bool ->
  (fst st' = true -> saved es <> []) /\ (fst st' = false -> saved es = []).
Proof.
  intros H. destruct (saved es) as [|x l]; cbn in H; rewrite H; split; congruence.
Qed.

(** A run of [process_html_file] prints its first line and reads the file
    once; it returns [True] after having saved an image and written the
    text back, [False] without either, and raises only the error of the
    read or of the write that failed, as the last thing it does. *)
Lemma process_run_shape filepath r es :
  process_run filepath r es ->
  processed es = [filepath] /\ texts_read es = [filepath]
  /\ match r with
     | Ret true =>
         exists w, written es = [(filepath, w)]
                   /\ In (EvWriteText filepath w None) es /\ saved es <> []
     | Ret false => written es = [] /\ saved es = []
     | Raise x =>
         exists e es0 ev, x = Exception e /\ es = es0 ++ [ev] /\ file_error ev e
     end.
Proof.
  destruct 1 as [e|c Hfind|c reps es Hms|c reps es Hms|c reps es e Hms].
  - repeat split. exists e, [EvPrint (Processing filepath)], (EvReadText filepath (inr e)).
    repeat split.
  - repeat split.
  - destruct (matches_run_counts Hms) as (_ & _ & _ & Hm & Hw & Ht & Hp).
    destruct (modified_iff_saved _ _ Hm) as [_ Hs]. specialize (Hs eq_refl).
    unfold_observations. rewrite Hw, Ht, Hp, Hs. repeat split.
  - destruct (matches_run_counts Hms) as (_ & _ & _ & Hm & Hw & Ht & Hp).
    destruct (modified_iff_saved _ _ Hm) as [Hs _]. specialize (Hs eq_refl).
    split; [|split].
    + unfold_observations. now rewrite Hp.
    + unfold_observations. now rewrite Ht.
    + exists (apply_replacements c reps). split; [|split].
      * unfold_observations. now rewrite Hw.
      * right. right. apply in_or_app. right. now left.
      * unfold_observations. now rewrite app_nil_r.
  - destruct (matches_run_counts Hms) as (_ & _ & _ & _ & _ & Ht & Hp).
    split; [|split].
    + unfold_observations. now rewrite Hp.
    + unfold_observations. now rewrite Ht.
    + exists e, (EvPrint (Processing filepath) :: EvReadText filepath (inl c) :: es),
        (EvWriteText filepath (apply_replacements c reps) (Some e)).
      repeat split.
Qed.

End ProcessRunFacts.

Section ProcessRunMore.

Ltac unfold_observations :=
  unfold saved, requested, written, texts_read, processed, answers in *;
  cbn [flat_map app] in *; rewrite ?flat_map_app in *; cbn [flat_map app] in *.

Lemma texts_read_nil_no_read es :
  texts_read es = [] -> forall path a, ~ In (EvReadText path a) es.
Proof.
  induction es as [|e es IH]; intros H path a Hin; [contradiction|].
  destruct Hin as [Hin|Hin].
  - subst e. discriminate.
  - destruct e; try discriminate; now apply (IH H path a).
Qed.

(** The text a run read, if it could read one, and the loop over its
    matches. *)
Lemma process_run_read filepath r es c :
  process_run filepath r es -> In (EvReadText filepath (inl c)) es ->
  exists st' es_m tail,
    es = EvPrint (Processing filepath) :: EvReadText filepath (inl c) :: es_m ++ tail
    /\ requested tail = [] /\ saved tail = []
    /\ (findall pattern c = [] /\ es_m = []
        \/ matches_run (findall pattern c) (false, []) st' es_m).
Proof.
  assert (Hread : forall c' es_m tail,
             texts_read es_m = [] -> texts_read tail = [] ->
             In (EvReadText filepath (inl c))
               (EvPrint (Processing filepath) :: EvReadText filepath (inl c')
                  :: es_m ++ tail) -> c' = c).
  { intros c' es_m tail Hm Ht [Hin|[Hin|Hin]]; [discriminate|congruence|].
    apply in_app_or in Hin as [Hin|Hin]; exfalso.
    - exact (texts_read_nil_no_read _ Hm _ _ Hin).
    - exact (texts_read_nil_no_read _ Ht _ _ Hin). }
  destruct 1 as [e|c' Hfind|c' reps es Hms|c' reps es Hms|c' reps es e Hms]; intros Hin.
  - destruct Hin as [Hin|[Hin|[]]]; discriminate.
  - rewrite <- (Hread c' [] [EvPrint NoElements] eq_refl eq_refl Hin) in *.
    exists (false, []), [], [EvPrint NoElements]. repeat split. now left.
  - destruct (matches_run_counts Hms) as (_ & _ & _ & _ & _ & Ht & _).
    rewrite <- (app_nil_r es) in Hin.
    rewrite <- (Hread c' es [] Ht eq_refl Hin) in *.
    exists (false, reps), es, []. rewrite app_nil_r. repeat split. now right.
  - destruct (matches_run_counts Hms) as (_ & _ & _ & _ & _ & Ht & _).
    assert (Hc : c' = c)
      by (eapply Hread; [| |exact Hin]; [exact Ht|reflexivity]).
    subst c'. eexists (true, reps), es, _. repeat split. now right.
  - destruct (matches_run_counts Hms) as (_ & _ & _ & _ & _ & Ht & _).
    assert (Hc : c' = c)
      by (eapply Hread; [| |exact Hin]; [exact Ht|reflexivity]).
    subst c'. eexists (true, reps), es, _. repeat split. now right.
Qed.

Lemma process_run_requests filepath r es c :
  process_run filepath r es -> In (EvReadText filepath (inl c)) es ->
  length (requested es) <= 3 * length (findall pattern c)
  /\ length (saved es) <= length (findall pattern c).
Proof.
  intros Hrun Hin.
  destruct (process_run_read c Hrun Hin)
    as (st' & es_m & tail & -> & Hreq & Hsaved & [[Hfind ->]|Hms]).
  - unfold_observations. rewrite Hreq, Hsaved. cbn. lia.
  - destruct (matches_run_counts Hms) as (_ & Hs & Hr & _).
    unfold_observations. rewrite Hreq, Hsaved, !app_nil_r. auto.
Qed.

Lemma process_run_backed filepath r es path w :
  process_run filepath r es -> In (path, w) (written es) ->
  exists c replacements,
    In (EvReadText filepath (inl c)) es
    /\ path = filepath /\ w = apply_replacements c replacements
    /\ Forall (backed_replacement (findall pattern c) es) replacements.
Proof.
  assert (Hback : forall c reps es_m tail,
             matches_run (findall pattern c) (false, []) (true, reps) es_m ->
             Forall (backed_replacement (findall pattern c)
                       (EvPrint (Processing filepath) :: EvReadText filepath (inl c)
                          :: es_m ++ tail)) reps).
  { intros c reps es_m tail Hms.
    destruct (matches_run_backed Hms (incl_refl _)) as (news & Hsnd & Hall).
    cbn in Hsnd. subst news.
    eapply Forall_impl; [|exact Hall].
    intros x. apply backed_replacement_more.
    intros e He. right. right. apply in_or_app. now left. }
  destruct 1 as [e|c Hfind|c reps es Hms|c reps es Hms|c reps es e Hms]; intros Hin.
  - contradiction.
  - contradiction.
  - destruct (matches_run_counts Hms) as (_ & _ & _ & _ & Hw & _).
    unfold_observations. rewrite Hw in Hin. contradiction.
  - destruct (matches_run_counts Hms) as (_ & _ & _ & _ & Hw & _).
    assert (Heq : (path, w) = (filepath, apply_replacements c reps)).
    { unfold_observations. rewrite Hw in Hin. now destruct Hin as [Hin|[]]. }
    injection Heq as -> ->.
    exists c, reps. repeat split; [right; now left|]. now apply Hback.
  - destruct (matches_run_counts Hms) as (_ & _ & _ & _ & Hw & _).
    assert (Heq : (path, w) = (filepath, apply_replacements c reps)).
    { unfold_observations. rewrite Hw in Hin. now destruct Hin as [Hin|[]]. }
    injection Heq as -> ->.
    exists c, reps. repeat split; [right; now left|]. now apply Hback.
Qed.

Lemma process_run_under_uploads filepath r es e :
  process_run filepath r es -> In e es -> under_uploads e.
Proof.
  assert (Hm : forall c st' es_m,
             matches_run (findall pattern c) (false, []) st' es_m ->
             In e es_m -> under_uploads e).
  { intros c st' es_m Hms. apply (matches_run_under_uploads Hms).
    intros S p Hin. destruct (findall_shape _ _ _ Hin) as [_ Hst].
    destruct Hst as (X & WS & P & T & _ & -> & _). now exists P. }
  destruct 1 as [err|c Hfind|c reps es Hms|c reps es Hms|c reps es err Hms]; intros Hin.
  - destruct Hin as [<-|[<-|[]]]; exact I.
  - destruct Hin as [<-|[<-|[<-|[]]]]; exact I.
  - destruct Hin as [<-|[<-|Hin]]; try exact I. exact (Hm _ _ _ Hms Hin).
  - destruct Hin as [<-|[<-|Hin]]; try exact I.
    apply in_app_or in Hin as [Hin|[<-|[<-|[<-|[]]]]]; try exact I.
    exact (Hm _ _ _ Hms Hin).
  - destruct Hin as [<-|[<-|Hin]]; try exact I.
    apply in_app_or in Hin as [Hin|[<-|[]]]; try exact I.
    exact (Hm _ _ _ Hms Hin).
Qed.

Lemma process_run_all_failed filepath r es :
  process_run filepath r es -> forallb failed (answers es) = true ->
  r <> Ret true /\ written es = [] /\ saved es = [].
Proof.
  destruct 1 as [e|c Hfind|c reps es Hms|c reps es Hms|c reps es e Hms]; intros Hfail.
  - repeat split. discriminate.
  - repeat split. discriminate.
  - destruct (matches_run_counts Hms) as (_ & _ & _ & _ & Hw & _).
    assert (Hf : forallb failed (answers es) = true) by exact Hfail.
    destruct (matches_run_all_failed Hms Hf) as [_ Hs].
    unfold_observations. rewrite Hw, Hs. repeat split. discriminate.
  - exfalso.
    assert (Hf : forallb failed (answers es) = true).
    { unfold_observations. now rewrite app_nil_r in Hfail. }
    destruct (matches_run_all_failed Hms Hf) as [Hst _]. discriminate.
  - exfalso.
    assert (Hf : forallb failed (answers es) = true).
    { unfold_observations. now rewrite app_nil_r in Hfail. }
    destruct (matches_run_all_failed Hms Hf) as [Hst _]. discriminate.
Qed.

Lemma process_run_total filepath es :
  process_run filepath (Ret true) es ->
  0 < length (saved es)
  /\ exists es0, es = es0 ++ [EvPrint (TotalChanges (length (saved es)))].
Proof.
  inversion 1 as [| | |c reps es_m Hms|]; subst.
  destruct (matches_run_counts Hms) as (Hl & _ & _ & Hm & _).
  destruct (modified_iff_saved _ _ Hm) as [Hs _]. specialize (Hs eq_refl).
  cbn [snd length Nat.add] in Hl.
  assert (Hsaved : saved (EvPrint (Processing filepath) :: EvReadText filepath (inl c)
                            :: es_m ++ [EvWriteText filepath (apply_replacements c reps) None;
                                        EvPrint (SavedHtml filepath);
                                        EvPrint (TotalChanges (length reps))])
                   = saved es_m).
  { unfold_observations. apply app_nil_r. }
  rewrite Hsaved, <- Hl. split.
  - rewrite Hl. destruct (saved es_m); [congruence|cbn; lia].
  - exists (EvPrint (Processing filepath) :: EvReadText filepath (inl c)
              :: es_m ++ [EvWriteText filepath (apply_replacements c reps) None;
                          EvPrint (SavedHtml filepath)]).
    cbn [app]. rewrite <- app_assoc. reflexivity.
Qed.

End ProcessRunMore.

(** * What every run of the driver looks like *)

Section FilesRunFacts.

Ltac unfold_observations :=
  unfold saved, requested, written, texts_read, processed, answers in *;
  cbn [flat_map app] in *; rewrite ?flat_map_app in *; cbn [flat_map app] in *.

(** The counts of the loop are the number of calls of [process_html_file]
    and the number of texts written back. *)
Lemma files_run_counts files counts r es :
  files_run files counts r es ->
  forall counts', r = Ret counts' ->
  fst counts' = fst counts + length (processed es)
  /\ snd counts' = snd counts + length (written es)
  /\ length (written es) <= length (processed es)
  /\ length (processed es) <= length files.
Proof.
  induction 1 as [counts|f fs counts e|f fs counts data r es Hmark Hrest IH
                 |f fs counts data success es r es' Hmark Hrun Hrest IH
                 |f fs counts data x es Hmark Hrun]; intros counts' Hr.
  - injection Hr as <-. cbn. repeat split; lia.
  - discriminate.
  - destruct (IH _ Hr) as (H1 & H2 & H3 & H4).
    unfold_observations. cbn [length]. repeat split; auto; lia.
  - destruct (IH _ Hr) as (H1 & H2 & H3 & H4). cbn [fst snd] in H1, H2.
    destruct (process_run_shape Hrun) as (Hp & _ & Hw).
    unfold_observations. rewrite !length_app, Hp in *. cbn [length] in *.
    destruct success.
    + destruct Hw as (w & -> & _). cbn [length]. repeat split; lia.
    + destruct Hw as [-> _]. cbn [length]. repeat split; lia.
  - discriminate.
Qed.

(** The loop raises only the error of the read or of the write that
    failed, and stops there. *)
Lemma files_run_raises files counts r es :
  files_run files counts r es ->
  forall x, r = Raise x ->
  exists e es0 ev, x = Exception e /\ es = es0 ++ [ev] /\ file_error ev e.
Proof.
  induction 1 as [counts|f fs counts e|f fs counts data r es Hmark Hrest IH
                 |f fs counts data success es r es' Hmark Hrun Hrest IH
                 |f fs counts data x' es Hmark Hrun]; intros x Hr.
  - discriminate.
  - injection Hr as <-. exists e, [], (EvReadText f (inr e)). repeat split.
  - destruct (IH _ Hr) as (e & es0 & ev & -> & -> & Hev).
    exists e, (EvReadText f (inl data) :: es0), ev. repeat split. exact Hev.
  - destruct (IH _ Hr) as (e & es0 & ev & -> & -> & Hev).
    exists e, (EvReadText f (inl data) :: es ++ es0), ev.
    cbn [app]. rewrite <- app_assoc. repeat split. exact Hev.
  - injection Hr as <-.
    destruct (process_run_shape Hrun) as (_ & _ & e & es0 & ev & -> & -> & Hev).
    exists e, (EvReadText f (inl data) :: es0), ev. repeat split. exact Hev.
Qed.

Lemma process_run_paths filepath r es :
  process_run filepath r es ->
  texts_read es = [filepath]
  /\ forall path w, In (path, w) (written es) -> path = filepath.
Proof.
  intros Hrun. destruct (process_run_shape Hrun) as (_ & Ht & _).
  split; [exact Ht|]. intros path w Hin.
  now destruct (@process_run_backed filepath r es path w Hrun Hin) as (c & reps & _ & -> & _).
Qed.

(** The loop reads and writes back only the files it is given. *)
Lemma files_run_paths files counts r es :
  files_run files counts r es ->
  incl (texts_read es) files /\ incl (map fst (written es)) files.
Proof.
  induction 1 as [counts|f fs counts e|f fs counts data r es Hmark Hrest IH
                 |f fs counts data success es r es' Hmark Hrun Hrest IH
                 |f fs counts data x' es Hmark Hrun].
  - split; intros x [].
  - split; intros x; cbn; tauto.
  - destruct IH as [IHt IHw]. split.
    + intros x [<-|Hx]; [now left|]. right. now apply IHt.
    + intros x Hx. right. now apply IHw.
  - destruct IH as [IHt IHw].
    destruct (process_run_paths Hrun) as [Ht Hw]. split.
    + change (texts_read (EvReadText f (inl data) :: es ++ es'))
        with (f :: texts_read (es ++ es')).
      rewrite texts_read_app, Ht.
      intros x [<-|[<-|Hx]]; [now left|now left|]. right. now apply IHt.
    + change (written (EvReadText f (inl data) :: es ++ es')) with (written (es ++ es')).
      rewrite written_app, map_app.
      intros x Hx. apply in_app_or in Hx as [Hx|Hx].
      * apply in_map_iff in Hx as ([path w] & <- & Hin). left.
        symmetry. exact (Hw _ _ Hin).
      * right. now apply IHw.
  - destruct (process_run_paths Hrun) as [Ht Hw]. split.
    + change (texts_read (EvReadText f (inl data) :: es)) with (f :: texts_read es).
      rewrite Ht. intros x [<-|[<-|[]]]; now left.
    + change (written (EvReadText f (inl data) :: es)) with (written es).
      intros x Hx. apply in_map_iff in Hx as ([path w] & <- & Hin). left.
      symmetry. exact (Hw _ _ Hin).
Qed.

End FilesRunFacts.

(** * Further properties of the script *)

Unset Implicit Arguments.
Import MoreScenarios.

(** X1. The check [main] makes before it calls the rewriter hides no match:
    a text that does not contain [wsite-section-bg-image] has no match of the
    pattern. *)
Theorem prefilter_hides_no_match c :
  contains c marker = false -> findall pattern c = [].
Proof.
  intros Hno. destruct (findall pattern c) as [|[full_style image_path] ms] eqn:Hfind;
    [reflexivity|exfalso].
  assert (Hin : In (full_style, image_path) (findall pattern c))
    by (rewrite Hfind; now left).
  destruct (findall_shape _ _ _ Hin) as [(pre & A & A' & B & post & Hc & _) _].
  assert (Hsplit : c = (pre ++ (text "class=" ++ [dq]) ++ A) ++ marker
                         ++ (A' ++ [dq] ++ B ++ style_attr full_style ++ post))
    by (rewrite Hc; now rewrite <- !app_assoc).
  unfold contains in Hno.
  destruct (partition marker c) as [[p1 p2]|] eqn:Hpart; [discriminate|].
  exact (partition_None _ _ Hpart _ _ Hsplit).
Qed.

Lemma prefilter_hides_no_match_witness : findall pattern doc_other_class = [].
Proof. apply (prefilter_hides_no_match doc_other_class). vm_compute. reflexivity. Defined.



(** X4. The text [process_html_file] writes back is the text it read with
    replacements applied, each of which puts, in the place of the URL of a
    match, the reference [./R] of a file [_/R] that was saved in the same
    run: the HTML is never made to point to an image that was not saved. *)
Theorem written_references_are_saved env filepath h path w :
  In (path, w) (written (snd (process_html_file env filepath h))) ->
  exists c replacements,
    In (EvReadText filepath (inl c)) (snd (process_html_file env filepath h))
    /\ path = filepath /\ w = apply_replacements c replacements
    /\ Forall (backed_replacement (findall pattern c)
                 (snd (process_html_file env filepath h))) replacements.
Proof.
  destruct (process_runs env filepath h) as (r & es & -> & Hrun). cbn [snd].
  exact (@process_run_backed filepath r es path w Hrun).
Qed.

Lemma written_references_are_saved_witness :
  exists c replacements,
    In (EvReadText Scenario.index_html (inl c))
       (snd (process_html_file (Scenario.mock Scenario.serve_all Scenario.any_path
                                  Scenario.doc_one) Scenario.index_html []))
    /\ Scenario.index_html = Scenario.index_html
    /\ Scenario.doc_migrated = apply_replacements c replacements
    /\ Forall (backed_replacement (findall pattern c)
                 (snd (process_html_file (Scenario.mock Scenario.serve_all
                                            Scenario.any_path Scenario.doc_one)
                                         Scenario.index_html []))) replacements.
Proof.
  apply (written_references_are_saved
           (Scenario.mock Scenario.serve_all Scenario.any_path Scenario.doc_one)
           Scenario.index_html [] Scenario.index_html Scenario.doc_migrated).
  vm_compute. left. reflexivity.
Defined.

(** X5. Whatever the file holds, every URL [process_html_file] requests is
    under [https://tgv4plus.com/uploads/], and every directory it makes and
    every image it writes is for a path that begins with [_/uploads/]. *)
Theorem rewriter_stays_under_uploads env filepath h e :
  In e (snd (process_html_file env filepath h)) -> under_uploads e.
Proof.
  destruct (process_runs env filepath h) as (r & es & -> & Hrun). cbn [snd].
  exact (@process_run_under_uploads filepath r es e Hrun).
Qed.

Lemma rewriter_stays_under_uploads_witness :
  under_uploads (EvGet (text "https://tgv4plus.com/uploads/a.png") Scenario.ok).
Proof.
  apply (rewriter_stays_under_uploads
           (Scenario.mock Scenario.serve_all Scenario.any_path Scenario.doc_one)
           Scenario.index_html []).
  vm_compute. do 4 right. left. reflexivity.
Defined.



(** X7. When every request of a run of [process_html_file] fails – for any
    number of matches – it does not return [True], writes nothing back and
    saves no image. *)
Theorem nothing_served_nothing_written env filepath h :
  forallb failed (answers (snd (process_html_file env filepath h))) = true ->
  fst (process_html_file env filepath h) <> Ret true
  /\ written (snd (process_html_file env filepath h)) = []
  /\ saved (snd (process_html_file env filepath h)) = [].
Proof.
  destruct (process_runs env filepath h) as (r & es & -> & Hrun). cbn [fst snd].
  exact (@process_run_all_failed filepath r es Hrun).
Qed.

Lemma nothing_served_nothing_written_witness :
  fst (process_html_file (Scenario.mock Scenario.serve_down Scenario.any_path
                            Scenario.doc_twins) Scenario.index_html []) <> Ret true
  /\ written (snd (process_html_file (Scenario.mock Scenario.serve_down Scenario.any_path
                                        Scenario.doc_twins) Scenario.index_html [])) = []
  /\ saved (snd (process_html_file (Scenario.mock Scenario.serve_down Scenario.any_path
                                      Scenario.doc_twins) Scenario.index_html [])) = [].
Proof.
  apply (nothing_served_nothing_written
           (Scenario.mock Scenario.serve_down Scenario.any_path Scenario.doc_twins)
           Scenario.index_html []).
  vm_compute. reflexivity.
Defined.



(** X9. When [main] returns, the last five lines it printed are the
    summary: the number of files listed, the number of calls of
    [process_html_file], and the number of texts written back, the last at
    most the second and the second at most the first. *)
Theorem main_summary_counts env h :
  fst (main env h) = Ret tt ->
  exists files es0,
    In (EvGlob (text "_") (text "*.html") files) (snd (main env h))
    /\ snd (main env h)
       = es0 ++ [EvPrint SummaryTitle; EvPrint (TotalFiles (length files));
                 EvPrint (FilesWithClass (length (processed (snd (main env h)))));
                 EvPrint (FilesModified (length (written (snd (main env h)))));
                 EvPrint Complete]
    /\ length (written (snd (main env h))) <= length (processed (snd (main env h)))
    /\ length (processed (snd (main env h))) <= length files.
Proof.
  destruct (main_runs env h) as (r & es & -> & Hrun). cbn [fst snd].
  intros Hr.
  destruct Hrun as [| |files x es Hne Hfiles|files counts es Hne Hfiles];
    try discriminate.
  destruct (files_run_counts Hfiles eq_refl) as (Hp & Hw & Hle & Hlen).
  cbn [fst snd Nat.add] in Hp, Hw.
  match goal with
  | |- exists _ _, In _ ?l /\ _ =>
      assert (Hproc : processed l = processed es)
        by (unfold processed; cbn [flat_map app]; rewrite flat_map_app;
            cbn [flat_map app]; apply app_nil_r);
      assert (Hwr : written l = written es)
        by (unfold written; cbn [flat_map app]; rewrite flat_map_app;
            cbn [flat_map app]; apply app_nil_r)
  end.
  rewrite Hproc, Hwr, <- Hp, <- Hw.
  exists files,
    (EvExists (text "_") true :: EvGlob (text "_") (text "*.html") files
       :: EvPrint (FoundFiles (length files)) :: EvPrint ProcessingAll :: es).
  repeat split.
  - right. now left.
  - now rewrite Hw, Hp.
  - now rewrite Hp.
Qed.

Lemma main_summary_counts_witness :
  exists files es0,
    In (EvGlob (text "_") (text "*.html") files)
       (snd (main (Scenario.mock Scenario.serve_all Scenario.any_path Scenario.doc_one) []))
    /\ snd (main (Scenario.mock Scenario.serve_all Scenario.any_path Scenario.doc_one) [])
       = es0 ++ [EvPrint SummaryTitle; EvPrint (TotalFiles (length files));
                 EvPrint (FilesWithClass
                            (length (processed
                                       (snd (main (Scenario.mock Scenario.serve_all
                                                     Scenario.any_path Scenario.doc_one)
                                                  [])))));
                 EvPrint (FilesModified
                            (length (written
                                       (snd (main (Scenario.mock Scenario.serve_all
                                                     Scenario.any_path Scenario.doc_one)
                                                  [])))));
                 EvPrint Complete]
    /\ length (written (snd (main (Scenario.mock Scenario.serve_all Scenario.any_path
                                     Scenario.doc_one) [])))
       <= length (processed (snd (main (Scenario.mock Scenario.serve_all Scenario.any_path
                                          Scenario.doc_one) [])))
    /\ length (processed (snd (main (Scenario.mock Scenario.serve_all Scenario.any_path
                                       Scenario.doc_one) [])))
       <= length files.
Proof.
  apply (main_summary_counts
           (Scenario.mock Scenario.serve_all Scenario.any_path Scenario.doc_one) []).
  vm_compute. reflexivity.
Defined.

(** X11. [main] reads and writes back no text file other than those the
    listing of the directory gave it. *)
Theorem main_touches_only_listed_files env h path :
  In path (texts_read (snd (main env h)))
  \/ In path (map fst (written (snd (main env h)))) ->
  exists files,
    In (EvGlob (text "_") (text "*.html") files) (snd (main env h)) /\ In path files.
Proof.
  destruct (main_runs env h) as (r & es & -> & Hrun). cbn [snd].
  destruct Hrun as [| |files x es Hne Hfiles|files counts es Hne Hfiles].
  - cbn. tauto.
  - cbn. tauto.
  - destruct (files_run_paths Hfiles) as [Ht Hw].
    intros Hin. exists files. split; [right; now left|].
    destruct Hin as [Hin|Hin]; [now apply Ht|now apply Hw].
  - destruct (files_run_paths Hfiles) as [Ht Hw].
    match goal with
    | |- In _ (texts_read ?l) \/ _ -> _ =>
        assert (Hr : texts_read l = texts_read es)
          by (unfold texts_read; cbn [flat_map app]; rewrite flat_map_app;
              cbn [flat_map app]; apply app_nil_r);
        assert (Hwr : written l = written es)
          by (unfold written; cbn [flat_map app]; rewrite flat_map_app;
              cbn [flat_map app]; apply app_nil_r)
    end.
    rewrite Hr, Hwr. intros Hin. exists files. split; [right; now left|].
    destruct Hin as [Hin|Hin]; [now apply Ht|now apply Hw].
Qed.

Lemma main_touches_only_listed_files_witness :
  exists files,
    In (EvGlob (text "_") (text "*.html") files)
       (snd (main (Scenario.mock Scenario.serve_all Scenario.any_path Scenario.doc_one) []))
    /\ In Scenario.index_html files.
Proof.
  apply (main_touches_only_listed_files
           (Scenario.mock Scenario.serve_all Scenario.any_path Scenario.doc_one) []
           Scenario.index_html).
  right. vm_compute. left. reflexivity.
Defined.

(** * The script on a console that can fail *)

Set Implicit Arguments.

Section ConsoleFacts.

Variable env : environment.
Variable console : history -> message -> option error.

(** ** With a console that takes every line, the script of [Section
    Program] *)

Lemma same_bind A B (m m' : M A) (f f' : A -> M B) :
  Console.same m m' -> (forall a, Console.same (f a) (f' a)) -> Console.same (bind m f) (bind m' f').
Proof.
  intros Hm Hf h. unfold bind. rewrite Hm.
  destruct (m' h) as [[a|x] es]; [rewrite Hf|]; reflexivity.
Qed.

Lemma same_try_except A (body body' : M A) (handler handler' : error -> M A) :
  Console.same body body' -> (forall e, Console.same (handler e) (handler' e)) ->
  Console.same (try_except body handler) (try_except body' handler').
Proof.
  intros Hb Hh h. unfold try_except. rewrite Hb.
  destruct (body' h) as [[a|[e|code]] es]; [|rewrite Hh|]; reflexivity.
Qed.

Lemma same_refl A (m : M A) : Console.same m m.
Proof. intros h. reflexivity. Qed.

Hypothesis Hconsole : Console.never_fails console.

Lemma same_print m : Console.same (Console.print console m) (print m).
Proof. intros h. unfold Console.print, print. now rewrite Hconsole. Qed.

Lemma same_attempt rp ext : Console.same (Console.attempt env console rp ext) (attempt env rp ext).
Proof.
  unfold Console.attempt, attempt.
  apply same_bind; [apply same_print|]. intros _.
  apply same_try_except.
  - apply same_bind; [apply same_refl|]. intros response.
    destruct (status_code response =? 200)%Z; [|apply same_refl].
    apply same_bind; [apply same_refl|]. intros _.
    apply same_bind; [apply same_refl|]. intros _.
    apply same_bind; [apply same_print|]. intros _. apply same_refl.
  - intros e. apply same_bind; [apply same_print|]. intros _. apply same_refl.
Qed.

Lemma same_try_extensions rp exts :
  Console.same (Console.try_extensions env console rp exts) (try_extensions env rp exts).
Proof.
  induction exts as [|ext exts IH]; [apply same_refl|].
  cbn [Console.try_extensions try_extensions].
  apply same_bind; [apply same_attempt|].
  intros [ref|]; [apply same_refl|exact IH].
Qed.

Lemma same_download_image image_path :
  Console.same (Console.download_image env console image_path) (download_image env image_path).
Proof. apply same_try_extensions. Qed.

Lemma same_for_matches : forall ms st,
  Console.same (Console.for_matches env console ms st) (for_matches env ms st).
Proof.
  induction ms as [|[full_style image_path] ms IH]; intros st; [apply same_refl|].
  cbn [Console.for_matches for_matches].
  apply same_bind; [apply same_print|]. intros _.
  apply same_bind; [apply same_download_image|].
  intros [[|x ref]|]; try apply IH.
  apply same_bind; [apply same_print|]. intros _. apply IH.
Qed.

Lemma same_process_html_file filepath :
  Console.same (Console.process_html_file env console filepath) (process_html_file env filepath).
Proof.
  unfold Console.process_html_file, process_html_file.
  apply same_bind; [apply same_print|]. intros _.
  apply same_bind; [apply same_refl|]. intros content.
  cbv zeta. destruct (findall pattern content) as [|m ms].
  - apply same_bind; [apply same_print|]. intros _. apply same_refl.
  - apply same_bind; [apply same_for_matches|]. intros [[|] replacements].
    + apply same_bind; [apply same_refl|]. intros _.
      apply same_bind; [apply same_print|]. intros _.
      apply same_bind; [apply same_print|]. intros _. apply same_refl.
    + apply same_refl.
Qed.

Lemma same_for_files : forall files counts,
  Console.same (Console.for_files env console files counts) (for_files env files counts).
Proof.
  induction files as [|f fs IH]; intros counts; [apply same_refl|].
  cbn [Console.for_files for_files].
  apply same_bind; [apply same_refl|]. intros data.
  destruct (contains data marker); [|apply IH].
  apply same_bind; [apply same_process_html_file|]. intros success. apply IH.
Qed.

Lemma same_main : Console.same (Console.main env console) (main env).
Proof.
  unfold Console.main, main. cbv zeta.
  apply same_bind; [apply same_refl|]. intros found.
  destruct (negb found).
  - apply same_bind; [apply same_print|]. intros _. apply same_refl.
  - apply same_bind; [apply same_refl|]. intros [|f fs].
    + apply same_bind; [apply same_print|]. intros _. apply same_refl.
    + apply same_bind; [apply same_print|]. intros _.
      apply same_bind; [apply same_print|]. intros _.
      apply same_bind; [apply same_for_files|]. intros counts.
      apply same_bind; [apply same_print|]. intros _.
      apply same_bind; [apply same_print|]. intros _.
      apply same_bind; [apply same_print|]. intros _.
      apply same_bind; [apply same_print|]. intros _.
      apply same_print.
Qed.

End ConsoleFacts.

(** ** Which operation an exception comes from *)

Section Blame.

Variable env : environment.
Variable console : history -> message -> option error.

Lemma blames_ret culprit A (a : A) : Console.blames culprit (ret a).
Proof. intros h x H. discriminate. Qed.

Lemma blames_bind culprit A B (m : M A) (f : A -> M B) :
  Console.blames culprit m -> (forall a, Console.blames culprit (f a)) ->
  Console.blames culprit (bind m f).
Proof.
  intros Hm Hf h x. unfold bind.
  specialize (Hm h). destruct (m h) as [[a|x0] es]; cbn [fst snd] in *.
  - specialize (Hf a (h ++ es)).
    destruct (f a (h ++ es)) as [r' es']; cbn [fst snd] in *.
    intros Hr. destruct (Hf x Hr) as (es0 & ev & -> & Hc).
    exists (es ++ es0), ev. split; [apply app_assoc|]. now rewrite app_assoc.
  - intros Hr. injection Hr as <-. exact (Hm x0 eq_refl).
Qed.

Lemma blames_weaken (culprit culprit' : history -> event -> exn -> Prop) A (m : M A) :
  (forall h ev x, culprit h ev x -> culprit' h ev x) ->
  Console.blames culprit m -> Console.blames culprit' m.
Proof.
  intros Hc Hm h x Hr. destruct (Hm h x Hr) as (es0 & ev & Hes & H).
  exists es0, ev. auto.
Qed.

(** What escapes a [try] with [except Exception] comes from the handler. *)
Lemma blames_try_except culprit A (body : M A) (handler : error -> M A) :
  Console.blames Console.any_failed body ->
  (forall e, Console.blames culprit (handler e)) ->
  Console.blames culprit (try_except body handler).
Proof.
  intros Hb Hh h x. unfold try_except.
  specialize (Hb h). destruct (body h) as [[a|[e|code]] es]; cbn [fst snd] in *.
  - discriminate.
  - specialize (Hh e (h ++ es)).
    destruct (handler e (h ++ es)) as [r' es']; cbn [fst snd] in *.
    intros Hr. destruct (Hh x Hr) as (es0 & ev & -> & Hc).
    exists (es ++ es0), ev. split; [apply app_assoc|]. now rewrite app_assoc.
  - destruct (Hb _ eq_refl) as (_ & _ & _ & e & He). discriminate.
Qed.

Lemma blames_print m : Console.blames (Console.print_failed console) (Console.print console m).
Proof.
  intros h x. unfold Console.print. cbn [fst snd].
  destruct (console h m) as [e|] eqn:E; cbn [raised]; [|discriminate].
  intros Hr. injection Hr as <-.
  exists [], (EvPrint m). rewrite app_nil_r. split; [reflexivity|].
  exists m, e. auto.
Qed.

Lemma any_failed_print m : Console.blames Console.any_failed (Console.print console m).
Proof.
  eapply blames_weaken; [|apply blames_print].
  intros h ev x (_ & e & _ & _ & ->). now exists e.
Qed.

Lemma any_failed_get url : Console.blames Console.any_failed (requests_get env url).
Proof.
  intros h x. unfold requests_get. cbn [fst snd].
  destruct (http_get env h url) as [resp|e]; [discriminate|].
  intros Hr. injection Hr as <-. eexists [], _. split; [reflexivity|]. now exists e.
Qed.

Lemma any_failed_mkdir path : Console.blames Console.any_failed (mkdir_parent env path).
Proof.
  intros h x. unfold mkdir_parent. cbn [fst snd].
  destruct (fs_mkdir_parent env h path) as [e|]; [|discriminate].
  intros Hr. injection Hr as <-. eexists [], _. split; [reflexivity|]. now exists e.
Qed.

Lemma any_failed_write_bytes path data :
  Console.blames Console.any_failed (write_bytes env path data).
Proof.
  intros h x. unfold write_bytes. cbn [fst snd].
  destruct (fs_write_bytes env h path data) as [e|]; [|discriminate].
  intros Hr. injection Hr as <-. eexists [], _. split; [reflexivity|]. now exists e.
Qed.

Lemma blames_read_text path :
  Console.blames (Console.print_or_file_failed console) (read_text env path).
Proof.
  intros h x. unfold read_text. cbn [fst snd].
  destruct (fs_read_text env h path) as [c|e] eqn:E; [discriminate|].
  intros Hr. injection Hr as <-. eexists [], _. split; [reflexivity|].
  right. exists e. split; reflexivity.
Qed.

Lemma blames_write_text path data :
  Console.blames (Console.print_or_file_failed console) (write_text env path data).
Proof.
  intros h x. unfold write_text. cbn [fst snd].
  destruct (fs_write_text env h path data) as [e|] eqn:E; [|discriminate].
  intros Hr. injection Hr as <-. eexists [], _. split; [reflexivity|].
  right. exists e. split; reflexivity.
Qed.

Lemma blames_print' m :
  Console.blames (Console.print_or_file_failed console) (Console.print console m).
Proof.
  eapply blames_weaken; [|apply blames_print]. intros h ev x H. now left.
Qed.

Lemma blames_fetcher_print m :
  (exists url, m = Trying url) \/ (exists ext cause, m = Failed ext cause) ->
  Console.blames (Console.fetcher_print_failed console) (Console.print console m).
Proof.
  intros Hm h x Hr. destruct (@blames_print m h x Hr) as (es0 & ev & Hes & m' & e & -> & He & ->).
  exists es0, (EvPrint m'). split; [exact Hes|].
  exists m', e. repeat split; auto.
  unfold Console.print in Hes. cbn [snd] in Hes.
  destruct es0 as [|e0 [|e1 es0]]; try discriminate.
  now injection Hes as <-.
Qed.

(** The only exception that leaves [download_image] is one that a [print]
    raised: the one before the [try], or the one in the handler. What the
    [print] inside the [try] raises goes to the handler. *)
Lemma blames_attempt rp ext :
  Console.blames (Console.fetcher_print_failed console)
    (Console.attempt env console rp ext).
Proof.
  unfold Console.attempt.
  apply blames_bind; [apply blames_fetcher_print; left; eauto|]. intros _.
  apply blames_try_except.
  - apply blames_bind; [apply any_failed_get|]. intros response.
    destruct (status_code response =? 200)%Z; [|apply blames_ret].
    apply blames_bind; [apply any_failed_mkdir|]. intros _.
    apply blames_bind; [apply any_failed_write_bytes|]. intros _.
    apply blames_bind; [apply any_failed_print|]. intros _. apply blames_ret.
  - intros e. apply blames_bind; [apply blames_fetcher_print; right; eauto|].
    intros _. apply blames_ret.
Qed.

Lemma blames_try_extensions rp exts :
  Console.blames (Console.fetcher_print_failed console)
    (Console.try_extensions env console rp exts).
Proof.
  induction exts as [|ext exts IH]; [apply blames_ret|].
  cbn [Console.try_extensions].
  apply blames_bind; [apply blames_attempt|].
  intros [ref|]; [apply blames_ret|exact IH].
Qed.

Lemma blames_download_image image_path :
  Console.blames (Console.print_or_file_failed console)
    (Console.download_image env console image_path).
Proof.
  eapply blames_weaken; [|apply blames_try_extensions].
  intros h ev x (m & e & Hev & He & Hx & _). left. exists m, e. auto.
Qed.

Lemma blames_for_matches : forall ms st,
  Console.blames (Console.print_or_file_failed console)
    (Console.for_matches env console ms st).
Proof.
  induction ms as [|[full_style image_path] ms IH]; intros st; [apply blames_ret|].
  cbn [Console.for_matches].
  apply blames_bind; [apply blames_print'|]. intros _.
  apply blames_bind; [apply blames_download_image|].
  intros [[|x ref]|]; try apply IH.
  apply blames_bind; [apply blames_print'|]. intros _. apply IH.
Qed.

Lemma blames_process_html_file filepath :
  Console.blames (Console.print_or_file_failed console)
    (Console.process_html_file env console filepath).
Proof.
  unfold Console.process_html_file.
  apply blames_bind; [apply blames_print'|]. intros _.
  apply blames_bind; [apply blames_read_text|]. intros content.
  cbv zeta. destruct (findall pattern content) as [|m ms].
  - apply blames_bind; [apply blames_print'|]. intros _. apply blames_ret.
  - apply blames_bind; [apply blames_for_matches|]. intros [[|] replacements].
    + apply blames_bind; [apply blames_write_text|]. intros _.
      apply blames_bind; [apply blames_print'|]. intros _.
      apply blames_bind; [apply blames_print'|]. intros _. apply blames_ret.
    + apply blames_ret.
Qed.

Lemma blames_for_files : forall files counts,
  Console.blames (Console.print_or_file_failed console)
    (Console.for_files env console files counts).
Proof.
  induction files as [|f fs IH]; intros counts; [apply blames_ret|].
  cbn [Console.for_files].
  apply blames_bind; [apply blames_read_text|]. intros data.
  destruct (contains data marker); [|apply IH].
  apply blames_bind; [apply blames_process_html_file|]. intros success. apply IH.
Qed.

Lemma blames_print_exit m :
  m = DirNotFound \/ m = NoHtmlFiles ->
  Console.blames (Console.main_culprit console)
    (bind (Console.print console m) (fun _ => raise (SystemExit 1) : M unit)).
Proof.
  intros Hm h x. unfold bind, Console.print, raise. cbn [fst snd].
  destruct (console h m) as [e|] eqn:E; cbn [raised fst snd]; intros Hr;
    injection Hr as <-; exists [], (EvPrint m); rewrite app_nil_r;
    (split; [reflexivity|]).
  - left. left. exists m, e. auto.
  - right. split; [reflexivity|]. destruct Hm as [->| ->]; auto.
Qed.

Lemma blames_main : Console.blames (Console.main_culprit console) (Console.main env console).
Proof.
  assert (Hw : forall A (m : M A),
             Console.blames (Console.print_or_file_failed console) m ->
             Console.blames (Console.main_culprit console) m).
  { intros A m. apply blames_weaken. intros h ev x H. now left. }
  unfold Console.main. cbv zeta.
  apply blames_bind.
  { intros h x. unfold path_exists. discriminate. }
  intros found. destruct (negb found).
  - apply blames_print_exit. now left.
  - apply blames_bind.
    { intros h x. unfold glob. discriminate. }
    intros [|f fs].
    + apply blames_print_exit. now right.
    + apply Hw.
      apply blames_bind; [apply blames_print'|]. intros _.
      apply blames_bind; [apply blames_print'|]. intros _.
      apply blames_bind; [apply blames_for_files|]. intros counts.
      apply blames_bind; [apply blames_print'|]. intros _.
      apply blames_bind; [apply blames_print'|]. intros _.
      apply blames_bind; [apply blames_print'|]. intros _.
      apply blames_bind; [apply blames_print'|]. intros _.
      apply blames_print'.
Qed.

End Blame.

(** * More on the runs of the fetcher *)

Section FetchRunMore.

Variable rp : str.

Lemma url_of_inj ext ext' : url_of rp ext = url_of rp ext' -> ext = ext'.
Proof.
  unfold url_of. intros H.
  apply app_inv_head in H. now apply app_inv_head in H.
Qed.

Lemma attempt_failed_more ext es es' :
  (forall e, In e es -> In e es') -> attempt_failed rp ext es -> attempt_failed rp ext es'.
Proof.
  intros Hsub (a & Hget & Hwhy). exists a. split; [auto|].
  destruct Hwhy as [Hf|[(e & He)|(data & e & He)]]; eauto 6.
Qed.

Lemma attempt_run_failed ext es :
  attempt_run rp ext None es -> attempt_failed rp ext es.
Proof.
  inversion 1 as [e|resp Hs|resp e Hs|resp e Hs|]; subst.
  - exists (inr e). split; [right; now left|]. now left.
  - exists (inl resp). split; [right; now left|]. left. cbn.
    destruct (Z.eqb_spec (status_code resp) 200); [contradiction|reflexivity].
  - exists (inl resp). split; [right; now left|]. right. left. exists e.
    right. right. now left.
  - exists (inl resp). split; [right; now left|]. right. right.
    exists (content resp), e. right. right. right. now left.
Qed.

(** Every extension before the one that is returned, and every extension
    when none is returned, was requested and failed. *)
Lemma fetch_run_earlier_failed exts r es :
  fetch_run rp exts r es ->
  exists k,
    length (requested es) = k /\ k <= length exts
    /\ (exts <> [] -> 1 <= k)
    /\ forall ext,
        In ext (firstn (k - match r with Some _ => 1 | None => 0 end) exts) ->
        attempt_failed rp ext es.
Proof.
  induction 1 as [|ext exts ref es Hhit|ext exts es r es' Hmiss Hrest IH].
  - exists 0. cbn. split; [reflexivity|]. split; [lia|]. split; [congruence|].
    intros ext' [].
  - destruct (attempt_run_one_request Hhit) as [Hreq _].
    exists 1. rewrite Hreq. cbn. split; [reflexivity|]. split; [lia|].
    split; [lia|]. intros ext' [].
  - destruct (attempt_run_one_request Hmiss) as [Hreq _].
    destruct IH as (k & Hk & Hle & Hpos & Hfailed).
    exists (S k). rewrite requested_app, length_app, Hreq, Hk. cbn [length Nat.add].
    split; [reflexivity|]. split; [lia|]. split; [lia|].
    intros ext' Hin.
    assert (Hfirst : S k - match r with Some _ => 1 | None => 0 end
                     = S (k - match r with Some _ => 1 | None => 0 end)).
    { destruct r; [|lia].
      assert (1 <= k); [|lia]. apply Hpos. inversion Hrest; discriminate. }
    rewrite Hfirst in Hin. cbn [firstn] in Hin. destruct Hin as [<-|Hin].
    + apply attempt_failed_more with (es := es); [|now apply attempt_run_failed].
      intros e He. apply in_or_app. now left.
    + apply attempt_failed_more with (es := es'); [|now apply Hfailed].
      intros e He. apply in_or_app. now right.
Qed.

(** An answer 200 is followed by the directory being made; if that does not
    raise, by the file being written with the content of the answer; and if
    that does not raise either, the reference of this extension is what is
    returned. *)
Lemma fetch_run_saves exts r es ext resp :
  fetch_run rp exts r es ->
  In (EvGet (url_of rp ext) (inl resp)) es -> status_code resp = 200%Z ->
  exists a,
    In (EvMkdirParent (local_path_of rp ext) a) es
    /\ (a = None ->
        exists b,
          In (EvWriteBytes (local_path_of rp ext) (content resp) b) es
          /\ (b = None -> r = Some (reference_of rp ext))).
Proof.
  assert (Hone : forall ext' r' es',
             attempt_run rp ext' r' es' ->
             In (EvGet (url_of rp ext) (inl resp)) es' -> status_code resp = 200%Z ->
             exists a,
               In (EvMkdirParent (local_path_of rp ext) a) es'
               /\ (a = None ->
                   exists b,
                     In (EvWriteBytes (local_path_of rp ext) (content resp) b) es'
                     /\ (b = None -> r' = Some (reference_of rp ext)))).
  { intros ext' r' es' Hrun Hin Hs.
    assert (Hext : ext' = ext).
    { pose proof (attempt_run_events _ Hrun Hin) as Hu. cbn in Hu.
      symmetry. now apply url_of_inj. }
    subst ext'.
    destruct Hrun as [e|resp' Hs'|resp' e Hs'|resp' e Hs'|resp' Hs'];
      cbn [In] in Hin;
      repeat (destruct Hin as [Hin|Hin]; [try discriminate|]); try contradiction;
      injection Hin as ->.
    - contradiction.
    - exists (Some e). split; [right; right; now left|discriminate].
    - exists None. split; [right; right; now left|]. intros _.
      exists (Some e). split; [right; right; right; now left|discriminate].
    - exists None. split; [right; right; now left|]. intros _.
      exists None. split; [right; right; right; now left|reflexivity]. }
  induction 1 as [|ext' exts ref es Hhit|ext' exts es r es' Hmiss Hrest IH];
    intros Hin Hs.
  - contradiction.
  - exact (Hone _ _ _ Hhit Hin Hs).
  - apply in_app_or in Hin as [Hin|Hin].
    + destruct (Hone _ _ _ Hmiss Hin Hs) as (a & Ha & Hnext).
      exists a. split; [apply in_or_app; now left|].
      intros Hnone. destruct (Hnext Hnone) as (b & Hb & Hret).
      exists b. split; [apply in_or_app; now left|].
      intros Hb'. specialize (Hret Hb'). discriminate.
    + destruct (IH Hin Hs) as (a & Ha & Hnext).
      exists a. split; [apply in_or_app; now right|].
      intros Hnone. destruct (Hnext Hnone) as (b & Hb & Hret).
      exists b. split; [apply in_or_app; now right|exact Hret].
Qed.

Lemma fetch_run_reference_requested exts ref es :
  fetch_run rp exts (Some ref) es ->
  exists ext resp,
    In ext exts /\ ref = reference_of rp ext
    /\ status_code resp = 200%Z
    /\ In (EvGet (url_of rp ext) (inl resp)) es
    /\ In (EvWriteBytes (local_path_of rp ext) (content resp) None) es.
Proof.
  remember (Some ref) as r eqn:Er.
  induction 1 as [|ext exts ref' es Hhit|ext exts es r es' Hmiss Hrest IH].
  - discriminate.
  - injection Er as ->. inversion Hhit; subst.
    exists ext, resp. cbn [In]. auto 10.
  - destruct (IH Er) as (ext' & resp & Hext & -> & Hs & Hget & Hwr).
    exists ext', resp. cbn [In]. repeat split; auto; apply in_or_app; auto.
Qed.

End FetchRunMore.

Section FetchRunDisk.

Variable rp : str.

Lemma attempt_run_disk ext r es :
  attempt_run rp ext r es ->
  (forall path a, In (EvMkdirParent path a) es ->
     exists resp,
       path = local_path_of rp ext /\ status_code resp = 200%Z
       /\ In (EvGet (url_of rp ext) (inl resp)) es)
  /\ (forall path data a, In (EvWriteBytes path data a) es ->
        exists resp,
          path = local_path_of rp ext /\ data = content resp
          /\ status_code resp = 200%Z
          /\ In (EvGet (url_of rp ext) (inl resp)) es
          /\ In (EvMkdirParent path None) es).
Proof.
  destruct 1 as [e|resp Hs|resp e Hs|resp e Hs|resp Hs]; split;
    intros; cbn [In] in *;
    repeat match goal with
           | H : _ \/ _ |- _ => destruct H as [H|H]; try discriminate
           | H : False |- _ => contradiction
           end;
    match goal with H : _ = _ |- _ => injection H as <- end; subst;
    exists resp; auto 10.
Qed.

(** A directory is made, and a file written, only for an extension whose
    GET answered 200, and the file holds what the answer held. *)
Lemma fetch_run_disk exts r es :
  fetch_run rp exts r es ->
  (forall path a, In (EvMkdirParent path a) es ->
     exists ext resp,
       In ext exts /\ path = local_path_of rp ext /\ status_code resp = 200%Z
       /\ In (EvGet (url_of rp ext) (inl resp)) es)
  /\ (forall path data a, In (EvWriteBytes path data a) es ->
        exists ext resp,
          In ext exts /\ path = local_path_of rp ext /\ data = content resp
          /\ status_code resp = 200%Z
          /\ In (EvGet (url_of rp ext) (inl resp)) es
          /\ In (EvMkdirParent path None) es).
Proof.
  induction 1 as [|ext exts ref es Hhit|ext exts es r es' Hmiss Hrest [IHm IHw]].
  - split; intros; contradiction.
  - destruct (attempt_run_disk Hhit) as [Hm Hw]. split.
    + intros path a Hin. destruct (Hm _ _ Hin) as (resp & H1 & H2 & H3).
      exists ext, resp. cbn [In]. auto.
    + intros path data a Hin. destruct (Hw _ _ _ Hin) as (resp & H1 & H2 & H3 & H4 & H5).
      exists ext, resp. cbn [In]. auto 10.
  - destruct (attempt_run_disk Hmiss) as [Hm Hw]. split.
    + intros path a Hin. apply in_app_or in Hin as [Hin|Hin].
      * destruct (Hm _ _ Hin) as (resp & H1 & H2 & H3).
        exists ext, resp. cbn [In]. repeat split; auto. apply in_or_app; auto.
      * destruct (IHm _ _ Hin) as (ext' & resp & H0 & H1 & H2 & H3).
        exists ext', resp. cbn [In]. repeat split; auto. apply in_or_app; auto.
    + intros path data a Hin. apply in_app_or in Hin as [Hin|Hin].
      * destruct (Hw _ _ _ Hin) as (resp & H1 & H2 & H3 & H4 & H5).
        exists ext, resp. cbn [In]. repeat split; auto; apply in_or_app; auto.
      * destruct (IHw _ _ _ Hin) as (ext' & resp & H0 & H1 & H2 & H3 & H4 & H5).
        exists ext', resp. cbn [In]. repeat split; auto; apply in_or_app; auto.
Qed.

End FetchRunDisk.

(** * The fetcher with a server and a disk that answer by URL and by path *)

Section ByUrl.

Variable env : environment.
Variables (serve : str -> response + error) (mk wr : str -> option error).

Hypothesis Hget : forall h url, http_get env h url = serve url.
Hypothesis Hmk : forall h path, fs_mkdir_parent env h path = mk path.
Hypothesis Hwr : forall h path data, fs_write_bytes env h path data = wr path.

Lemma attempt_by_url rp ext h :
  exists es,
    attempt env rp ext h
    = (Ret (if wins serve mk wr rp ext then Some (reference_of rp ext) else None), es)
    /\ requested es = [url_of rp ext]
    /\ saved es = if wins serve mk wr rp ext then saved_by serve rp ext else [].
Proof.
  unfold attempt, bind, try_except, print, requests_get, mkdir_parent, write_bytes, ret,
    wins, saved_by.
  cbn [app]. rewrite Hget.
  destruct (serve (url_of rp ext)) as [resp|e]; [|eexists; repeat split; reflexivity].
  destruct (status_code resp =? 200)%Z.
  - rewrite Hmk. destruct (mk (local_path_of rp ext)) as [e|]; cbn [raised];
      [eexists; repeat split; reflexivity|].
    rewrite Hwr. destruct (wr (local_path_of rp ext)) as [e|]; cbn [raised];
      eexists; repeat split; reflexivity.
  - destruct (mk (local_path_of rp ext)), (wr (local_path_of rp ext));
      eexists; repeat split; reflexivity.
Qed.

(** The reference returned is that of the first extension that is served
    with a 200 and saved, the extensions requested are those up to it, and
    its file is the one file saved. *)
Lemma try_extensions_by_url rp : forall exts h,
  exists es,
    try_extensions env rp exts h
    = (Ret (option_map (reference_of rp) (find (wins serve mk wr rp) exts)), es)
    /\ requested es = map (url_of rp) (tried (wins serve mk wr rp) exts)
    /\ saved es = match find (wins serve mk wr rp) exts with
                  | Some ext => saved_by serve rp ext
                  | None => []
                  end.
Proof.
  induction exts as [|ext exts IH]; intros h; [exists []; repeat split; reflexivity|].
  cbn [try_extensions find tried map]. unfold bind.
  destruct (attempt_by_url rp ext h) as (es & -> & Hreq & Hsaved).
  destruct (wins serve mk wr rp ext); cbn [option_map].
  - unfold ret. rewrite app_nil_r. exists es. auto.
  - destruct (IH (h ++ es)) as (es' & -> & IHreq & IHsaved).
    exists (es ++ es'). split; [reflexivity|].
    now rewrite requested_app, saved_app, Hreq, IHreq, Hsaved, IHsaved.
Qed.

End ByUrl.

Section FetchRunFirst.

Variable rp : str.

Lemma reference_of_inj ext ext' : reference_of rp ext = reference_of rp ext' -> ext = ext'.
Proof.
  unfold reference_of. intros H.
  apply app_inv_head in H. now apply app_inv_head in H.
Qed.

(** The extensions are requested from the left. The reference returned is
    that of the extension requested last, whose GET answered 200 and whose
    file is the one file saved, every extension before it having failed;
    without a reference, every extension was requested and failed. *)
Lemma fetch_run_first_saved exts r es :
  fetch_run rp exts r es ->
  exists k,
    requested es = map (url_of rp) (firstn k exts)
    /\ match r with
       | Some ref =>
           exists ext resp,
             0 < k /\ nth_error exts (pred k) = Some ext
             /\ ref = reference_of rp ext
             /\ In (EvGet (url_of rp ext) (inl resp)) es
             /\ status_code resp = 200%Z
             /\ saved es = [(local_path_of rp ext, content resp)]
             /\ forall ext', In ext' (firstn (pred k) exts) -> attempt_failed rp ext' es
       | None =>
           k = length exts /\ saved es = []
           /\ forall ext, In ext exts -> attempt_failed rp ext es
       end.
Proof.
  induction 1 as [|ext exts ref es Hhit|ext exts es r es' Hmiss Hrest IH].
  - exists 0. repeat split; auto. intros ext [].
  - destruct (attempt_run_one_request Hhit) as [Hreq _].
    exists 1. split; [exact Hreq|].
    inversion Hhit; subst.
    exists ext, resp. cbn [pred firstn nth_error In].
    repeat split; auto; try lia; try contradiction.
  - destruct (attempt_run_one_request Hmiss) as [Hreq _].
    pose proof (attempt_run_missed Hmiss) as Hsaved.
    pose proof (attempt_run_failed Hmiss) as Hfailed.
    destruct IH as (k & IHreq & IHr).
    exists (S k). rewrite requested_app, saved_app, Hreq, IHreq, Hsaved.
    split; [reflexivity|].
    destruct r as [ref|].
    + destruct IHr as (ext' & resp & Hk & Hnth & -> & Hget & S200 & Hsv & Hearlier).
      exists ext', resp. cbn [pred app]. repeat split; auto; try lia.
      * destruct k; [lia|]. exact Hnth.
      * apply in_or_app. now right.
      * intros ext2 Hin. destruct k; [lia|]. cbn [firstn pred] in Hin, Hearlier.
        destruct Hin as [<-|Hin].
        -- apply attempt_failed_more with (es := es); [|exact Hfailed].
           intros e He. apply in_or_app. now left.
        -- apply attempt_failed_more with (es := es'); [|now apply Hearlier].
           intros e He. apply in_or_app. now right.
    + destruct IHr as (-> & -> & Hall). cbn [length app]. repeat split; auto.
      intros ext2 [<-|Hin].
      * apply attempt_failed_more with (es := es); [|exact Hfailed].
        intros e He. apply in_or_app. now left.
      * apply attempt_failed_more with (es := es'); [|now apply Hall].
        intros e He. apply in_or_app. now right.
Qed.

(** A GET that fails is followed by the request for the next extension. *)
Lemma fetch_run_continues exts r es :
  fetch_run rp exts r es -> NoDup exts ->
  forall ext next a pre post,
    In (EvGet (url_of rp ext) a) es -> failed a = true ->
    exts = pre ++ ext :: next :: post ->
    In (url_of rp next) (requested es).
Proof.
  induction 1 as [|ext0 exts ref es Hhit|ext0 exts es r es' Hmiss Hrest IH];
    intros Hnodup ext next a pre post Hin Hfailed Hexts.
  - contradiction.
  - inversion Hhit as [| | | |resp S200]; subst. cbn [In] in Hin.
    repeat (destruct Hin as [Hin|Hin]; [try discriminate|]); try contradiction.
    injection Hin as _ <-. cbn in Hfailed. rewrite S200 in Hfailed. discriminate.
  - rewrite requested_app. apply in_or_app. right.
    apply NoDup_cons_iff in Hnodup as [Hnotin Hnodup].
    destruct pre as [|p pre]; cbn [app] in Hexts.
    + injection Hexts as <- ->.
      destruct (fetch_run_first_saved Hrest) as (k & Hreq & Hr).
      rewrite Hreq.
      assert (Hk : 0 < k).
      { destruct r as [ref|]; [destruct Hr as (_ & _ & Hk & _); exact Hk|].
        destruct Hr as (-> & _). cbn. lia. }
      destruct k; [lia|]. now left.
    + injection Hexts as <- ->.
      apply in_app_or in Hin as [Hin|Hin].
      * pose proof (attempt_run_events _ Hmiss Hin) as Hu. cbn in Hu.
        apply url_of_inj in Hu. subst ext.
        exfalso. apply Hnotin. apply in_or_app. right. now left.
      * exact (IH Hnodup ext next a pre post Hin Hfailed eq_refl).
Qed.

End FetchRunFirst.

(** * The paths of the fetcher, whatever the console does *)

Section ConsoleLockstep.

Variable env : environment.
Variable console : history -> message -> option error.
Variable rp : str.

Lemma lockstep_stop ext exts o es :
  lockstep rp [ext] o es -> lockstep rp (ext :: exts) o es.
Proof.
  intros (Hget & Hchain & Hmk & Hwr & Href).
  split; [|split; [|split; [|split]]].
  - intros url a Hin. destruct (Hget url a Hin) as (ext' & [<-|[]] & ->).
    exists ext. split; [now left|reflexivity].
  - exact Hchain.
  - intros path a Hin.
    destruct (Hmk path a Hin) as (ext' & resp & [<-|[]] & H).
    exists ext, resp. split; [now left|exact H].
  - intros path data a Hin.
    destruct (Hwr path data a Hin) as (ext' & resp & [<-|[]] & H).
    exists ext, resp. split; [now left|exact H].
  - intros ref Hr.
    destruct (Href ref Hr) as (ext' & resp & [<-|[]] & H).
    exists ext, resp. split; [now left|exact H].
Qed.

Lemma lockstep_next ext exts o es es' :
  lockstep rp [ext] (Ret None) es -> lockstep rp exts o es' ->
  lockstep rp (ext :: exts) o (es ++ es').
Proof.
  intros (Hget & Hchain & Hmk & Hwr & _) (Hget' & Hchain' & Hmk' & Hwr' & Href').
  split; [|split; [|split; [|split]]].
  - intros url a Hin. apply in_app_or in Hin as [Hin|Hin].
    + destruct (Hget url a Hin) as (ext' & [<-|[]] & ->).
      exists ext. split; [now left|reflexivity].
    + destruct (Hget' url a Hin) as (ext' & Hext & ->).
      exists ext'. split; [now right|reflexivity].
  - intros ext' resp Hin Hs. apply in_app_or in Hin as [Hin|Hin].
    + destruct (Hchain ext' resp Hin Hs) as (a & Ha & Hnext).
      exists a. split; [apply in_or_app; now left|].
      intros Hnone. destruct (Hnext Hnone) as (b & Hb).
      exists b. apply in_or_app. now left.
    + destruct (Hchain' ext' resp Hin Hs) as (a & Ha & Hnext).
      exists a. split; [apply in_or_app; now right|].
      intros Hnone. destruct (Hnext Hnone) as (b & Hb).
      exists b. apply in_or_app. now right.
  - intros path a Hin. apply in_app_or in Hin as [Hin|Hin].
    + destruct (Hmk path a Hin) as (ext' & resp & [<-|[]] & H1 & H2 & H3).
      exists ext, resp. repeat split; auto; [now left|apply in_or_app; now left].
    + destruct (Hmk' path a Hin) as (ext' & resp & H0 & H1 & H2 & H3).
      exists ext', resp. repeat split; auto; [now right|apply in_or_app; now right].
  - intros path data a Hin. apply in_app_or in Hin as [Hin|Hin].
    + destruct (Hwr path data a Hin) as (ext' & resp & [<-|[]] & H1 & H2 & H3 & H4 & H5).
      exists ext, resp. repeat split; auto; [now left|apply in_or_app; now left..].
    + destruct (Hwr' path data a Hin) as (ext' & resp & H0 & H1 & H2 & H3 & H4 & H5).
      exists ext', resp. repeat split; auto; [now right|apply in_or_app; now right..].
  - intros ref Hr.
    destruct (Href' ref Hr) as (ext' & resp & H0 & H1 & H2 & H3 & H4).
    exists ext', resp. repeat split; auto; [now right|apply in_or_app; now right..].
Qed.

Lemma lockstep_nothing o : (forall ref, o <> Ret (Some ref)) -> lockstep rp [] o [].
Proof.
  intros Ho. split; [|split; [|split; [|split]]]; try (intros; contradiction).
  intros ref Hr. now destruct (Ho ref).
Qed.

(** The events of one run, one after the other. *)
Ltac events H :=
  cbn [In] in H;
  repeat (destruct H as [H|H]; [try discriminate|]);
  try contradiction.

Lemma lockstep_attempt ext h :
  lockstep rp [ext] (fst (Console.attempt env console rp ext h))
    (snd (Console.attempt env console rp ext h)).
Proof.
  unfold Console.attempt, bind, try_except, Console.print, requests_get, mkdir_parent,
    write_bytes, ret.
  cbn [app fst snd].
  destruct (console h (Trying (url_of rp ext))) as [e0|]; cbn [raised fst snd app].
  { split; [|split; [|split; [|split]]]; intros; try discriminate;
      match goal with H : In _ _ |- _ => events H end. }
  destruct (http_get env _ (url_of rp ext)) as [resp|e]; cbn [fst snd app].
  2:{ destruct (console _ (Failed ext e)); cbn [raised fst snd app];
        (split; [|split; [|split; [|split]]]); intros; try discriminate;
        match goal with H : In _ _ |- _ => events H end.
      all: injection H as <- <-; exists ext; split; [now left|reflexivity]. }
  destruct (Z.eqb_spec (status_code resp) 200) as [S200|S200]; cbn [fst snd app].
  2:{ split; [|split; [|split; [|split]]]; intros; try discriminate;
        match goal with H : In _ _ |- _ => events H end.
      - injection H as <- <-. exists ext. split; [now left|reflexivity].
      - injection H as Hu <-. contradiction. }
  assert (Hfinish :
            forall o es,
              (forall ref, o = Ret (Some ref) ->
                           ref = reference_of rp ext
                           /\ In (EvWriteBytes (local_path_of rp ext) (content resp) None) es) ->
              (forall url a, In (EvGet url a) es -> url = url_of rp ext /\ a = inl resp) ->
              In (EvGet (url_of rp ext) (inl resp)) es ->
              (exists a, In (EvMkdirParent (local_path_of rp ext) a) es
                         /\ (a = None ->
                             exists b, In (EvWriteBytes (local_path_of rp ext)
                                             (content resp) b) es)) ->
              (forall path a, In (EvMkdirParent path a) es -> path = local_path_of rp ext) ->
              (forall path data a,
                  In (EvWriteBytes path data a) es ->
                  path = local_path_of rp ext /\ data = content resp
                  /\ In (EvMkdirParent path None) es) ->
              lockstep rp [ext] o es).
  { intros o es Href Hget Hin Hchain Hmk Hwr.
    split; [|split; [|split; [|split]]].
    - intros url a H. destruct (Hget url a H) as [-> _].
      exists ext. split; [now left|reflexivity].
    - intros ext' resp' H Hs. destruct (Hget _ _ H) as [Hu Hr].
      apply (@url_of_inj rp) in Hu. subst ext'. injection Hr as ->. exact Hchain.
    - intros path a H. rewrite (Hmk path a H). exists ext, resp.
      repeat split; auto. now left.
    - intros path data a H. destruct (Hwr path data a H) as (-> & -> & Hm).
      exists ext, resp. repeat split; auto. now left.
    - intros ref Hr. destruct (Href ref Hr) as [-> Hw].
      exists ext, resp. repeat split; auto. now left. }
  destruct (fs_mkdir_parent env _ (local_path_of rp ext)) as [e|];
    cbn [raised fst snd app].
  { destruct (console _ (Failed ext e)); cbn [raised fst snd app]; apply Hfinish;
      try (intros; discriminate);
      try (intros; match goal with H : In _ _ |- _ => events H end;
           match goal with H : _ = _ |- _ => injection H; intros; subst; auto end);
      try (cbn [In]; auto 10);
      try (eexists; split; [cbn [In]; auto 10|intros; discriminate]). }
  destruct (fs_write_bytes env _ (local_path_of rp ext) (content resp)) as [e|];
    cbn [raised fst snd app].
  { destruct (console _ (Failed ext e)); cbn [raised fst snd app]; apply Hfinish;
      try (intros; discriminate);
      try (intros; match goal with H : In _ _ |- _ => events H end;
           match goal with H : _ = _ |- _ => injection H; intros; subst end;
           cbn [In]; auto 10);
      try (cbn [In]; auto 10);
      try (eexists; split; [cbn [In]; auto 10|intros; eexists; cbn [In]; auto 10]). }
  destruct (console _ (Saved (local_path_of rp ext))) as [e|]; cbn [raised fst snd app].
  { destruct (console _ (Failed ext e)); cbn [raised fst snd app]; apply Hfinish;
      try (intros; discriminate);
      try (intros; match goal with H : In _ _ |- _ => events H end;
           match goal with H : _ = _ |- _ => injection H; intros; subst end;
           cbn [In]; auto 10);
      try (cbn [In]; auto 10);
      try (eexists; split; [cbn [In]; auto 10|intros; eexists; cbn [In]; auto 10]). }
  apply Hfinish;
    try (intros ref Hr; injection Hr as <-; cbn [In]; auto 10);
    try (intros; match goal with H : In _ _ |- _ => events H end;
         match goal with H : _ = _ |- _ => injection H; intros; subst end;
         cbn [In]; auto 10);
    try (cbn [In]; auto 10);
    try (eexists; split; [cbn [In]; auto 10|intros; eexists; cbn [In]; auto 10]).
Qed.

Lemma lockstep_try_extensions : forall exts h,
  lockstep rp exts (fst (Console.try_extensions env console rp exts h))
    (snd (Console.try_extensions env console rp exts h)).
Proof.
  induction exts as [|ext exts IH]; intros h.
  - apply lockstep_nothing. discriminate.
  - cbn [Console.try_extensions]. unfold bind.
    pose proof (lockstep_attempt ext h) as Hatt.
    destruct (Console.attempt env console rp ext h) as [[[ref|]|x] es];
      cbn [fst snd] in *.
    + unfold ret. rewrite app_nil_r. now apply lockstep_stop.
    + specialize (IH (h ++ es)).
      destruct (Console.try_extensions env console rp exts (h ++ es)) as [o es'].
      cbn [fst snd] in *. now apply lockstep_next.
    + now apply lockstep_stop.
Qed.

Lemma snd_bind A B (m : M A) (f : A -> M B) h :
  exists tail,
    snd (bind m f h) = snd (m h) ++ tail
    /\ forall a, fst (m h) = Ret a -> tail = snd (f a (h ++ snd (m h))).
Proof.
  unfold bind. destruct (m h) as [[a|x] es]; cbn [fst snd].
  - destruct (f a (h ++ es)) as [r' es'] eqn:E. exists es'. cbn [snd].
    split; [reflexivity|]. intros a' Ha. injection Ha as <-. now rewrite E.
  - exists []. rewrite app_nil_r. split; [reflexivity|discriminate].
Qed.

Lemma snd_try_except A (body : M A) (handler : error -> M A) h :
  exists tail, snd (try_except body handler h) = snd (body h) ++ tail.
Proof.
  unfold try_except. destruct (body h) as [[a|[e|code]] es]; cbn [snd].
  - exists []. now rewrite app_nil_r.
  - destruct (handler e (h ++ es)) as [r' es']. now exists es'.
  - exists []. now rewrite app_nil_r.
Qed.

(** The first thing a call does is to print the URL for the first
    extension, formed from the stripped path; unless that [print] raises,
    the next thing is to request it. *)
Lemma try_extensions_first ext exts h :
  exists rest,
    snd (Console.try_extensions env console rp (ext :: exts) h)
    = EvPrint (Trying (url_of rp ext)) :: rest
    /\ (console h (Trying (url_of rp ext)) = None ->
        exists a rest', rest = EvGet (url_of rp ext) a :: rest').
Proof.
  cbn [Console.try_extensions].
  destruct (snd_bind (Console.attempt env console rp ext)
              (fun returned =>
                 match returned with
                 | Some ref => ret (Some ref)
                 | None => Console.try_extensions env console rp exts
                 end) h) as (tail & -> & _).
  unfold Console.attempt.
  match goal with
  | |- context [bind (Console.print console ?m) ?k h] =>
      destruct (snd_bind (Console.print console m) k h) as (tail1 & -> & Htail1)
  end.
  unfold Console.print at 1. cbn [snd app].
  exists (tail1 ++ tail). split; [reflexivity|].
  intros Hnone.
  rewrite (Htail1 tt) by (unfold Console.print; cbn [fst]; now rewrite Hnone).
  match goal with
  | |- context [try_except ?body ?handler ?h1] =>
      destruct (snd_try_except body handler h1) as (tail2 & ->)
  end.
  match goal with
  | |- context [bind (requests_get env ?u) ?k ?h1] =>
      destruct (snd_bind (requests_get env u) k h1) as (tail3 & -> & _)
  end.
  unfold requests_get. cbn [snd app]. eauto.
Qed.

End ConsoleLockstep.

(** * The fetcher, whatever the console does *)

Unset Implicit Arguments.
Import ConsoleScenarios.






(** C8. A logical path that begins with [_/] is used without these two
    characters, any other path as it is. Whatever the console does: the
    first thing [download_image] does is to print – and, unless that [print]
    raises, to request – the URL [https://tgv4plus.com/<stripped path>.png];
    every URL requested is [https://tgv4plus.com/<stripped path><ext>]; a
    GET that answers 200 is followed by making the directory of
    [_/<stripped path><ext>] and, if that does not raise, by writing the body
    of the answer to that file; no other directory is made and no other file
    written; and a reference that is returned is [./<stripped path><ext>] for
    a file [_/<stripped path><ext>] written in this way – the same stripped
    path, the same extension. When the console takes every line, the file
    written without an error is the one whose reference is returned. *)
Theorem download_image_paths_in_lockstep env console image_path h :
  let rp := remote_path_of image_path in
  let r := fst (Console.download_image env console image_path h) in
  let es := snd (Console.download_image env console image_path h) in
  (startswith image_path (text "_/") = true -> image_path = text "_/" ++ rp)
  /\ (startswith image_path (text "_/") = false -> rp = image_path)
  /\ (exists rest,
        es = EvPrint (Trying (text "https://tgv4plus.com/" ++ rp ++ text ".png")) :: rest
        /\ (console h (Trying (text "https://tgv4plus.com/" ++ rp ++ text ".png")) = None ->
            exists a rest',
              rest = EvGet (text "https://tgv4plus.com/" ++ rp ++ text ".png") a :: rest'))
  /\ (forall url a,
        In (EvGet url a) es ->
        exists ext, In ext extensions /\ url = text "https://tgv4plus.com/" ++ rp ++ ext)
  /\ (forall ext resp,
        In (EvGet (text "https://tgv4plus.com/" ++ rp ++ ext) (inl resp)) es ->
        status_code resp = 200%Z ->
        exists a,
          In (EvMkdirParent (text "_/" ++ rp ++ ext) a) es
          /\ (a = None ->
              exists b, In (EvWriteBytes (text "_/" ++ rp ++ ext) (content resp) b) es))
  /\ (forall path a,
        In (EvMkdirParent path a) es ->
        exists ext resp,
          In ext extensions /\ path = text "_/" ++ rp ++ ext
          /\ status_code resp = 200%Z
          /\ In (EvGet (text "https://tgv4plus.com/" ++ rp ++ ext) (inl resp)) es)
  /\ (forall path data a,
        In (EvWriteBytes path data a) es ->
        exists ext resp,
          In ext extensions /\ path = text "_/" ++ rp ++ ext /\ data = content resp
          /\ status_code resp = 200%Z
          /\ In (EvGet (text "https://tgv4plus.com/" ++ rp ++ ext) (inl resp)) es
          /\ In (EvMkdirParent path None) es)
  /\ (forall ref,
        r = Ret (Some ref) ->
        exists ext resp,
          In ext extensions /\ ref = text "./" ++ rp ++ ext
          /\ status_code resp = 200%Z
          /\ In (EvGet (text "https://tgv4plus.com/" ++ rp ++ ext) (inl resp)) es
          /\ In (EvWriteBytes (text "_/" ++ rp ++ ext) (content resp) None) es)
  /\ (Console.never_fails console ->
      forall ext resp,
        In (EvGet (text "https://tgv4plus.com/" ++ rp ++ ext) (inl resp)) es ->
        status_code resp = 200%Z ->
        exists a,
          In (EvMkdirParent (text "_/" ++ rp ++ ext) a) es
          /\ (a = None ->
              exists b,
                In (EvWriteBytes (text "_/" ++ rp ++ ext) (content resp) b) es
                /\ (b = None -> r = Ret (Some (text "./" ++ rp ++ ext))))).
Proof.
  intros rp r es. subst r es.
  split; [|split; [|split; [|split]]].
  - unfold rp, remote_path_of, startswith. intros Hs. rewrite Hs.
    destruct (strip_prefix (text "_/") image_path) as [rest|] eqn:E; [|discriminate].
    apply strip_prefix_Some in E. subst image_path. reflexivity.
  - unfold rp, remote_path_of. now intros ->.
  - exact (try_extensions_first env console rp (text ".png") [text ".jpg"; text ".jpeg"] h).
  - exact (proj1 (lockstep_try_extensions env console rp extensions h)).
  - split; [|split; [|split; [|split]]];
      try apply (lockstep_try_extensions env console rp extensions h).
    intros Hconsole.
    unfold Console.download_image. fold rp.
    change (Console.try_extensions env console rp extensions h)
      with (Console.download_image env console image_path h).
    rewrite (@same_download_image env console Hconsole image_path h).
    destruct (download_image_runs env image_path h) as (r & es & -> & Hrun).
    cbn [fst snd]. fold rp in Hrun.
    intros ext resp Hin Hs.
    destruct (@fetch_run_saves rp extensions r es ext resp Hrun Hin Hs) as (a & Ha & Hnext).
    exists a. split; [exact Ha|]. intros Hnone.
    destruct (Hnext Hnone) as (b & Hb & Hret).
    exists b. split; [exact Hb|]. intros Hb'. now rewrite (Hret Hb').
Qed.

Lemma download_image_paths_in_lockstep_witness :
  let r := fst (Console.download_image (mock serve_all any_path []) utf8_console path_a []) in
  let es := snd (Console.download_image (mock serve_all any_path []) utf8_console path_a []) in
  path_a = text "_/" ++ text "uploads/a"
  /\ (exists a rest',
        es = EvPrint (Trying (text "https://tgv4plus.com/" ++ text "uploads/a" ++ text ".png"))
               :: EvGet (text "https://tgv4plus.com/" ++ text "uploads/a" ++ text ".png") a
               :: rest')
  /\ (exists a,
        In (EvMkdirParent (text "_/" ++ text "uploads/a" ++ text ".png") a) es
        /\ (a = None ->
            exists b,
              In (EvWriteBytes (text "_/" ++ text "uploads/a" ++ text ".png") body b) es
              /\ (b = None ->
                  r = Ret (Some (text "./" ++ text "uploads/a" ++ text ".png")))))
  /\ (exists ext resp,
        In ext extensions
        /\ text "_/uploads/a.png" = text "_/" ++ text "uploads/a" ++ ext
        /\ status_code resp = 200%Z
        /\ In (EvGet (text "https://tgv4plus.com/" ++ text "uploads/a" ++ ext) (inl resp)) es)
  /\ (exists ext resp,
        In ext extensions
        /\ text "_/uploads/a.png" = text "_/" ++ text "uploads/a" ++ ext
        /\ body = content resp
        /\ status_code resp = 200%Z
        /\ In (EvGet (text "https://tgv4plus.com/" ++ text "uploads/a" ++ ext) (inl resp)) es
        /\ In (EvMkdirParent (text "_/uploads/a.png") None) es)
  /\ (exists ext resp,
        In ext extensions
        /\ text "./uploads/a.png" = text "./" ++ text "uploads/a" ++ ext
        /\ status_code resp = 200%Z
        /\ In (EvGet (text "https://tgv4plus.com/" ++ text "uploads/a" ++ ext) (inl resp)) es
        /\ In (EvWriteBytes (text "_/" ++ text "uploads/a" ++ ext) (content resp) None) es).
Proof.
  intros r es.
  assert (Hconsole : Console.never_fails utf8_console) by (intros h m; reflexivity).
  destruct (download_image_paths_in_lockstep
              (mock serve_all any_path []) utf8_console path_a [])
    as (Hstrip & _ & (rest & Hfirst & Hget) & _ & _ & Hmk & Hwr & Href & Hreturn).
  split; [|split; [|split; [|split; [|split]]]].
  - apply Hstrip. reflexivity.
  - destruct (Hget eq_refl) as (a & rest' & Hrest).
    exists a, rest'. unfold es. rewrite Hfirst, Hrest. reflexivity.
  - apply (Hreturn Hconsole (text ".png") {| status_code := 200; content := body |});
      [vm_compute; auto 10|reflexivity].
  - apply (Hmk (text "_/uploads/a.png") None). vm_compute. auto 10.
  - apply (Hwr (text "_/uploads/a.png") body None). vm_compute. auto 10.
  - apply Href. reflexivity.
Defined.

(** * One replacement for each match that was fetched *)

Section OutcomesFacts.

Variable env : environment.

Lemma outcomes_of_length : forall ms h, length (outcomes_of env ms h) = length ms.
Proof.
  induction ms as [|[full_style image_path] ms IH]; intros h; [reflexivity|].
  cbn [outcomes_of]. cbv zeta.
  destruct (download_image env image_path (h ++ [EvPrint (Found image_path)])) as [r es].
  cbn [length]. now rewrite IH.
Qed.

Lemma replacements_of_length : forall ms outcomes,
  length outcomes = length ms ->
  length (replacements_of ms outcomes) = succeeded outcomes.
Proof.
  unfold replacements_of, succeeded.
  induction ms as [|[full_style image_path] ms IH]; intros [|o outcomes] Hlen;
    try discriminate; [reflexivity|].
  injection Hlen as Hlen. cbn [combine flat_map filter].
  destruct o; cbn [app length]; now rewrite IH.
Qed.

Lemma replacements_of_cons full_style image_path ms o outcomes :
  replacements_of ((full_style, image_path) :: ms) (o :: outcomes)
  = match o with
    | Some new_path =>
        [(full_style,
          str_replace full_style (old_url_of image_path) (new_url_of new_path) None)]
    | None => []
    end ++ replacements_of ms outcomes.
Proof. reflexivity. Qed.

(** The loop over the matches records the replacements of the matches that
    were fetched, in order. *)
Lemma for_matches_outcomes : forall ms st h,
  fst (for_matches env ms st h)
  = Ret (match replacements_of ms (outcomes_of env ms h) with
         | [] => fst st
         | _ :: _ => true
         end,
         snd st ++ replacements_of ms (outcomes_of env ms h)).
Proof.
  induction ms as [|[full_style image_path] ms IH]; intros st h.
  - cbn. rewrite app_nil_r. now destruct st.
  - cbn [for_matches outcomes_of]. cbv zeta. unfold bind at 1 2, print. cbn [app].
    destruct (download_image_runs env image_path (h ++ [EvPrint (Found image_path)]))
      as (r & es1 & E & Hrun).
    rewrite E. rewrite replacements_of_cons.
    destruct r as [[|x ref]|].
    + specialize (IH st ((h ++ [EvPrint (Found image_path)]) ++ es1)).
      rewrite app_nil_r.
      destruct (for_matches env ms st _) as [r' es']. cbn [fst snd app] in *. exact IH.
    + unfold bind, print. cbn [app].
      specialize (IH (true, snd st ++ [(full_style,
                                        str_replace full_style (old_url_of image_path)
                                          (new_url_of (x :: ref)) None)])
                    (((h ++ [EvPrint (Found image_path)]) ++ es1)
                       ++ [EvPrint (WillUpdate (new_url_of (x :: ref)))])).
      destruct (for_matches env ms _ _) as [r' es']. cbn [fst snd app] in *.
      rewrite <- (app_assoc (h ++ [EvPrint (Found image_path)])) in IH.
      rewrite IH, <- (app_assoc (snd st)). cbn [app].
      now destruct (replacements_of ms _).
    + specialize (IH st ((h ++ [EvPrint (Found image_path)]) ++ es1)).
      rewrite app_nil_r.
      destruct (for_matches env ms st _) as [r' es']. cbn [fst snd app] in *. exact IH.
Qed.

(** What is written back, if anything, is the text read with these
    replacements applied. *)
Lemma process_written_outcomes fp h c :
  fs_read_text env (h ++ [EvPrint (Processing fp)]) fp = inl c ->
  written (snd (process_html_file env fp h))
  = match replacements_of (findall pattern c)
            (outcomes_of env (findall pattern c)
               (h ++ [EvPrint (Processing fp); EvReadText fp (inl c)])) with
    | [] => []
    | (_ :: _) as replacements => [(fp, apply_replacements c replacements)]
    end.
Proof.
  intros Hread. rewrite (@process_html_file_eq env fp h c Hread). cbv zeta.
  destruct (findall pattern c) as [|m ms] eqn:Hfind; [reflexivity|].
  pose proof (for_matches_outcomes (m :: ms) (false, [])
                (h ++ [EvPrint (Processing fp); EvReadText fp (inl c)])) as Hout.
  destruct (@for_matches_runs env (m :: ms) (m :: ms) (false, [])
              (h ++ [EvPrint (Processing fp); EvReadText fp (inl c)]))
    as ([modified reps] & es & E & _ & Hw);
    [apply incl_refl|constructor|].
  rewrite E in *. cbn [fst snd app] in Hout. injection Hout as -> ->.
  destruct (replacements_of (m :: ms) _) as [|rep reps].
  - cbn. exact Hw.
  - cbn. rewrite written_app, Hw. cbn.
    destruct (fs_write_text env _ fp _); reflexivity.
Qed.

Lemma apply_replacements_substituted : forall replacements c,
  substituted replacements c (apply_replacements c replacements).
Proof.
  induction replacements as [|[old_style new_style] reps IH]; intros c.
  - constructor.
  - unfold apply_replacements. cbn [fold_left].
    destruct (replace_first (style_attr old_style) (style_attr new_style) c)
      as [[Hnone ->]|(pre & post & Hpart & ->)]; [discriminate| |].
    + apply substituted_absent; [|apply IH].
      now apply partition_None.
    + apply substituted_leftmost with (pre := pre) (post := post).
      * now apply partition_Some.
      * now apply partition_first with (post := post).
      * apply IH.
Qed.

End OutcomesFacts.

(** * Replacing every occurrence *)

Section ReplaceAll.

Variables old new : str.
Hypothesis Hold : old <> [].

Lemma str_replace_not_found s :
  partition old s = None -> str_replace s old new None = s.
Proof.
  intros E. unfold str_replace. destruct old as [|o old']; [congruence|].
  cbn [replace_upto]. now rewrite E.
Qed.

Lemma str_replace_all : forall s, replaced_all old new s (str_replace s old new None).
Proof.
  assert (Hpos : 0 < length old) by (destruct old; [congruence|cbn; lia]).
  assert (H : forall n s, length s <= n ->
                          replaced_all old new s (str_replace s old new None)).
  { induction n as [|n IH]; intros s Hlen;
      destruct (partition old s) as [[a b]|] eqn:E.
    - apply partition_length in E. lia.
    - rewrite (str_replace_not_found s E). apply replaced_none.
      now apply partition_None.
    - rewrite (replace_all_found old new s a b Hold E).
      apply replaced_leftmost with (b := b).
      + split; [now apply partition_Some|now apply partition_first with (post := b)].
      + apply IH. apply partition_length in E. lia.
    - rewrite (str_replace_not_found s E). apply replaced_none.
      now apply partition_None. }
  intros s. now apply (H (length s)).
Qed.

End ReplaceAll.

(** * Where the pattern can match at all *)

Section ClassThenStyle.

Lemma partition_char_free ch : forall A X,
  forallb (not_char ch) A = true -> partition [ch] (A ++ [ch] ++ X) = Some (A, X).
Proof.
  induction A as [|a A IH]; intros X HA.
  - change ([] ++ [ch] ++ X) with ([ch] ++ X).
    rewrite partition_eq, strip_prefix_app. reflexivity.
  - cbn [forallb] in HA. apply andb_true_iff in HA as [Ha HA].
    cbn [app]. rewrite partition_eq.
    assert (Hstrip : strip_prefix [ch] (a :: A ++ ch :: X) = None).
    { cbn [strip_prefix]. unfold not_char in Ha.
      rewrite N.eqb_sym. now destruct (N.eqb a ch). }
    cbn [app] in IH. rewrite Hstrip, (IH X HA). reflexivity.
Qed.

Lemma prefix_of_shorter : forall (B0 B X Y : str),
  B ++ X = B0 ++ Y -> length B0 <= length B -> exists Z, B = B0 ++ Z.
Proof.
  induction B0 as [|b B0 IH]; intros B X Y E Hlen.
  - now exists B.
  - destruct B as [|b' B]; [cbn in Hlen; lia|].
    cbn in E, Hlen. injection E as -> E.
    destruct (IH B X Y E) as (Z & ->); [lia|]. now exists Z.
Qed.

Lemma style_follows_complete A' B rest :
  forallb (not_char dq) A' = true ->
  forallb (not_char gt) B = true ->
  style_follows (A' ++ [dq] ++ B ++ (text "style=" ++ [dq]) ++ rest) = true.
Proof.
  intros HA' HB. unfold style_follows.
  rewrite (partition_char_free dq A' _ HA').
  destruct (partition_found (text "style=" ++ [dq]) B rest) as (B0 & rest0 & E).
  rewrite E.
  pose proof (partition_Some _ _ _ _ E) as Hsplit.
  pose proof (partition_first _ _ _ _ E B rest eq_refl) as Hlen.
  destruct (prefix_of_shorter B0 B _ _ Hsplit Hlen) as (Z & ->).
  rewrite forallb_app in HB. now apply andb_true_iff in HB as [HB _].
Qed.

Lemma class_then_style_eq c :
  class_then_style c
  = (match strip_prefix marker c with
     | Some s => style_follows s
     | None => false
     end
     || match c with
        | [] => false
        | _ :: c' => class_then_style c'
        end)%bool.
Proof. destruct c; reflexivity. Qed.

Lemma class_then_style_complete : forall pre s,
  style_follows s = true -> class_then_style (pre ++ marker ++ s) = true.
Proof.
  induction pre as [|x pre IH]; intros s Hs.
  - cbn [app]. rewrite class_then_style_eq, strip_prefix_app, Hs. reflexivity.
  - cbn [app]. rewrite class_then_style_eq, (IH s Hs). apply orb_true_r.
Qed.

(** Nothing matches in a text in which the marker class is nowhere
    followed, after the quote that closes its attribute and before the next
    ['>'], by the text [style=] and a quote. *)
Lemma no_class_then_style_no_match c :
  class_then_style c = false -> findall pattern c = [].
Proof.
  intros Hnone.
  destruct (findall pattern c) as [|[full_style image_path] l] eqn:E; [reflexivity|].
  exfalso.
  assert (Hin : In (full_style, image_path) (findall pattern c)) by (rewrite E; now left).
  destruct (findall_shape c full_style image_path Hin)
    as [(pre & A & A' & B & post & Hc & HA & HA' & HB) _].
  assert (Hc' : c = (pre ++ (text "class=" ++ [dq]) ++ A) ++ marker
                      ++ (A' ++ [dq] ++ B ++ (text "style=" ++ [dq])
                             ++ (full_style ++ [dq] ++ post))).
  { rewrite Hc. unfold style_attr. repeat rewrite <- app_assoc. reflexivity. }
  rewrite Hc', class_then_style_complete in Hnone; [discriminate|].
  now apply style_follows_complete.
Qed.

End ClassThenStyle.

(** * The rewriter: which occurrences are substituted *)

(** C2, as it holds. [process_html_file] records one replacement for each
    match whose fetch returned a reference – for each such match, not for
    each distinct captured value – and applies them in the order of the
    matches: each replaces the leftmost occurrence of
    [style="<captured value>"] in the working text as it then is, or nothing
    if there is none, and keeps what is before and after that occurrence; if
    no replacement is recorded, nothing is written. So a later verbatim
    duplicate of a captured style value stays as it is unless a further
    match records a further replacement for the same value: in the document
    made of the same matching element twice, both copies are rewritten when
    both fetches succeed, and only the first when only the first fetch
    succeeds. *)
Theorem one_substitution_per_fetched_match :
  (forall env filepath h c,
      fs_read_text env (h ++ [EvPrint (Processing filepath)]) filepath = inl c ->
      let matches := findall pattern c in
      let outcomes :=
        outcomes_of env matches
          (h ++ [EvPrint (Processing filepath); EvReadText filepath (inl c)]) in
      let replacements := replacements_of matches outcomes in
      length outcomes = length matches
      /\ length replacements = succeeded outcomes
      /\ (replacements = [] ->
          written (snd (process_html_file env filepath h)) = [])
      /\ (replacements <> [] ->
          exists w,
            written (snd (process_html_file env filepath h)) = [(filepath, w)]
            /\ substituted replacements c w))
  /\ (findall pattern doc_twins = [(style_a, path_a); (style_a, path_a)]
      /\ outcomes_of (mock serve_all any_path doc_twins) (findall pattern doc_twins)
           [EvPrint (Processing index_html); EvReadText index_html (inl doc_twins)]
         = [Some (text "./uploads/a.png"); Some (text "./uploads/a.png")]
      /\ written (snd (process_html_file (mock serve_all any_path doc_twins) index_html []))
         = [(index_html, doc_migrated ++ doc_migrated)])
  /\ (outcomes_of (serves_once doc_twins) (findall pattern doc_twins)
        [EvPrint (Processing index_html); EvReadText index_html (inl doc_twins)]
      = [Some (text "./uploads/a.png"); None]
      /\ written (snd (process_html_file (serves_once doc_twins) index_html []))
         = [(index_html, doc_migrated ++ doc_one)]).
Proof.
  split; [|split; vm_compute; repeat split].
  intros env filepath h c Hread matches outcomes replacements.
  assert (Hlen : length outcomes = length matches) by apply outcomes_of_length.
  split; [exact Hlen|].
  split; [now apply replacements_of_length|].
  pose proof (process_written_outcomes env filepath h c Hread) as Hw.
  fold matches in Hw. fold outcomes in Hw. fold replacements in Hw.
  split.
  - intros E. now rewrite E in Hw.
  - intros Hne. destruct replacements as [|rep reps] eqn:E; [congruence|].
    exists (apply_replacements c (rep :: reps)). split; [exact Hw|].
    apply apply_replacements_substituted.
Qed.

Lemma one_substitution_per_fetched_match_witness :
  exists w,
    written (snd (process_html_file (serves_once doc_twins) index_html []))
    = [(index_html, w)]
    /\ substituted [(style_a, text "background-image: url(./uploads/a.png)")] doc_twins w.
Proof.
  destruct one_substitution_per_fetched_match as [H _].
  destruct (H (serves_once doc_twins) index_html [] doc_twins eq_refl)
    as (_ & _ & _ & Hw).
  apply Hw. vm_compute. discriminate.
Defined.



(** C10, as it holds. Every match of the pattern is a class attribute that
    holds the marker class followed, with no ['>'] in between, by the text
    [style="<value>"], and the value captured holds
    [background-image: url(_/uploads/<...>.html)]. So nothing matches in a
    text in which the marker class is nowhere followed, after the quote that
    closes its attribute and before the next ['>'], by [style=] and a quote:
    the element [elem_style_first], whose only style attribute comes before
    its class attribute, and the element [elem_other_tag], whose style is in
    a child tag, are not matched. The text [style="..."] need not be the
    style attribute of the element: [elem_data_style], whose style attribute
    comes before its class attribute, is matched through its [data-style]
    attribute. And a file in which nothing matches is not rewritten. *)
Theorem class_before_style_in_one_tag :
  (forall c full_style image_path,
      In (full_style, image_path) (findall pattern c) ->
      tag_shape c full_style /\ style_shape full_style image_path)
  /\ (forall c, class_then_style c = false -> findall pattern c = [])
  /\ (class_then_style elem_style_first = false /\ findall pattern elem_style_first = [])
  /\ (class_then_style elem_other_tag = false /\ findall pattern elem_other_tag = [])
  /\ findall pattern elem_data_style = [(style_a, path_a)]
  /\ (forall env filepath h c,
        fs_read_text env (h ++ [EvPrint (Processing filepath)]) filepath = inl c ->
        findall pattern c = [] ->
        fst (process_html_file env filepath h) = Ret false
        /\ written (snd (process_html_file env filepath h)) = []).
Proof.
  split; [exact findall_shape|].
  split; [exact no_class_then_style_no_match|].
  split; [vm_compute; split; reflexivity|].
  split; [vm_compute; split; reflexivity|].
  split; [vm_compute; reflexivity|].
  intros env filepath h c Hread Hfind.
  rewrite (process_no_match env _ _ Hread Hfind). auto.
Qed.

Lemma class_before_style_in_one_tag_witness :
  (tag_shape elem_data_style style_a /\ style_shape style_a path_a)
  /\ findall pattern elem_other_tag = []
  /\ fst (process_html_file (mock serve_all any_path elem_other_tag) index_html [])
     = Ret false
  /\ written (snd (process_html_file (mock serve_all any_path elem_other_tag) index_html []))
     = [].
Proof.
  destruct class_before_style_in_one_tag as (Hshape & Hnone & _ & _ & _ & Hidle).
  split; [|split].
  - apply Hshape. vm_compute. left. reflexivity.
  - apply Hnone. vm_compute. reflexivity.
  - apply (Hidle (mock serve_all any_path elem_other_tag) index_html [] elem_other_tag).
    + vm_compute. reflexivity.
    + apply Hnone. vm_compute. reflexivity.
Defined.

(** * The rewriter and the driver, whatever the console does *)




